(** * custom-ingestion-worker: rate limiter, validator and sample service

    A shallow embedding of the Go packages [ratelimiter], [validator],
    [types] and [service], followed by the properties of the ingestion
    pipeline that the specification states about them.

    Conventions of the embedding:
    - a Go [string] is a byte string, here [string] (a list of [ascii]);
    - a Go [int] is a 64-bit signed integer, here a [Z] with the wrap-around
      of [+] and [-] written out by [GoInt.wrap]; loop counters bounded by a
      slice length never wrap and are left as they are;
    - a [time.Time] is the instant it denotes, here the number of nanoseconds
      since the zero time (January 1, year 1, 00:00:00 UTC), a [Z];
      [time.Time.Add] saturates at the ends of the 64-bit count of seconds,
      which is [GoTime.AddSaturating]; [GoTime.Add] is the exact sum, equal
      to it wherever the sum is a time that [time.Time] can hold;
    - a [map[string][]time.Time] is a [gmap string (list Time)]; a key mapped
      to the nil slice is present in the map, with the empty list;
    - methods with a pointer receiver pass the receiver's state explicitly;
      the file system, the clock and the persistence sink are an environment
      of oracles indexed by the number of interactions made so far. *)

From Stdlib Require Import ZArith Lia Ascii String List Bool.
From stdpp Require Import base decidable option list gmap strings sorting.

Local Open Scope Z_scope.

(** ** Go's [int] *)

Module GoInt.

Definition minInt : Z := - 2 ^ 63.
Definition maxInt : Z := 2 ^ 63 - 1.

(** Two's complement wrap-around of a 64-bit signed integer. *)
Definition wrap (z : Z) : Z := (z + 2 ^ 63) mod 2 ^ 64 - 2 ^ 63.

Definition inRange (z : Z) : Prop := minInt <= z <= maxInt.

End GoInt.

(** ** Go's [time] package, as far as the program uses it *)

Module GoTime.

(** Nanoseconds since the zero time. *)
Abbreviation Time := Z.
(** A [time.Duration] counts nanoseconds. *)
Abbreviation Duration := Z.

Definition Second : Duration := 1000000000.
Definition Minute : Duration := 60 * Second.

Definition zeroTime : Time := 0.

(** The exact sum: [t.Add(d)] wherever the sum is [representable]. *)
Definition Add (t : Time) (d : Duration) : Time := t + d.
Definition After (t u : Time) : bool := u <? t.
Definition Equal (t u : Time) : bool := t =? u.
Definition IsZero (t : Time) : bool := t =? zeroTime.

(** A [time.Time] without a monotonic clock reading holds a signed 64-bit
    count of seconds since the zero time and a count of nanoseconds below
    one second. *)
Definition seconds (t : Time) : Z := t / Second.
Definition nanoseconds (t : Time) : Z := t mod Second.

Definition minTime : Time := GoInt.minInt * Second.
Definition maxTime : Time := GoInt.maxInt * Second + (Second - 1).

Definition representable (t : Time) : Prop := minTime <= t <= maxTime.

(** [t.Add(d)] as the [time] package computes it: the duration is split
    into seconds and nanoseconds, the nanoseconds are carried, and [addSec]
    adds the seconds, putting [1<<63 - 1] or [-(1<<63 - 1)] in place of a
    sum that overflows. *)
Definition AddSaturating (t : Time) (d : Duration) : Time :=
  let dsec := Z.quot d Second in
  let nsec := nanoseconds t + Z.rem d Second in
  let '(dsec, nsec) :=
    if Second <=? nsec then (dsec + 1, nsec - Second)
    else if nsec <? 0 then (dsec - 1, nsec + Second)
    else (dsec, nsec) in
  let sum := GoInt.wrap (seconds t + dsec) in
  let sec :=
    if Bool.eqb (seconds t <? sum) (0 <? dsec) then sum
    else if 0 <? dsec then GoInt.maxInt
    else - GoInt.maxInt in
  sec * Second + nsec.

(** The times whose window start, one minute earlier, is reached without
    saturation: all but the first minute of what [time.Time] can hold. *)
Definition windowInRange (t : Time) : Prop := minTime + Minute <= t <= maxTime.

End GoTime.

Import GoTime.

(** ** Package [ratelimiter] *)

Module ratelimiter.

(** [type RateLimiter struct]; the mutex guards every method body, so each
    method is one atomic state transformer. *)
Record RateLimiter : Type := mkRateLimiter {
  requestsPerMinute : Z;
  requests : gmap string (list Time)
}.

Definition NewRateLimiter (n : Z) : RateLimiter :=
  {| requestsPerMinute := n; requests := ∅ |}.

(** The test of both loops: [t.After(windowStart) || t.Equal(windowStart)]. *)
Definition inWindow (windowStart t : Time) : bool :=
  After t windowStart || Equal t windowStart.

(** The loop of [IsAllowed]: [validRequests] starts as the nil slice and
    every stored time that passes the test is appended to it. *)
Definition validRequestsOf (windowStart : Time) (stored : list Time) : list Time :=
  fold_left
    (fun validRequests t =>
       if inWindow windowStart t then validRequests ++ [t] else validRequests)
    stored [].

Definition setRequests (r : RateLimiter) (customerID : string)
    (ts : list Time) : RateLimiter :=
  {| requestsPerMinute := requestsPerMinute r;
     requests := <[customerID := ts]> (requests r) |}.

(** [IsAllowed] with the window start as the exact difference, which is
    what the method computes for every [createdAt] that is [windowInRange];
    [IsAllowedSaturating] below covers the first minute of [time.Time]
    too. *)
Definition IsAllowed (r : RateLimiter) (customerID : string)
    (createdAt : Time) : bool * RateLimiter :=
  match requests r !! customerID with
  | None => (true, setRequests r customerID [createdAt])
  | Some stored =>
      let windowStart := Add createdAt (-1 * Minute) in
      let validRequests := validRequestsOf windowStart stored in
      let r1 := setRequests r customerID validRequests in
      if Z.of_nat (length validRequests) <? requestsPerMinute r1 then
        (true, setRequests r1 customerID (validRequests ++ [createdAt]))
      else (false, r1)
  end.

(** [IsAllowed] with the window start computed as [time.Time.Add] does, at
    the ends of the range of [time.Time] too; it is [IsAllowed] for every
    [createdAt] that is [windowInRange]. *)
Definition IsAllowedSaturating (r : RateLimiter) (customerID : string)
    (createdAt : Time) : bool * RateLimiter :=
  match requests r !! customerID with
  | None => (true, setRequests r customerID [createdAt])
  | Some stored =>
      let windowStart := AddSaturating createdAt (-1 * Minute) in
      let validRequests := validRequestsOf windowStart stored in
      let r1 := setRequests r customerID validRequests in
      if Z.of_nat (length validRequests) <? requestsPerMinute r1 then
        (true, setRequests r1 customerID (validRequests ++ [createdAt]))
      else (false, r1)
  end.

(** A sequence of [IsAllowedSaturating] calls for one key, with their
    answers. *)
Fixpoint IsAllowedAllSaturating (r : RateLimiter) (customerID : string)
    (ats : list Time) : list bool * RateLimiter :=
  match ats with
  | [] => ([], r)
  | createdAt :: rest =>
      let '(b, r1) := IsAllowedSaturating r customerID createdAt in
      let '(bs, r2) := IsAllowedAllSaturating r1 customerID rest in
      (b :: bs, r2)
  end.

(** The loop of [GetRemainingRequests]. *)
Definition validCountOf (windowStart : Time) (times : list Time) : Z :=
  fold_left
    (fun validCount t => if inWindow windowStart t then validCount + 1 else validCount)
    times 0.

(** [now] is the reading of [time.Now()] made by the call.  The receiver is
    returned as the method leaves it. *)
Definition GetRemainingRequests (r : RateLimiter) (customerID : string)
    (now : Time) : Z * RateLimiter :=
  let windowStart := Add now (-1 * Minute) in
  let validCount :=
    match requests r !! customerID with
    | Some times => validCountOf windowStart times
    | None => 0
    end in
  (GoInt.wrap (requestsPerMinute r - validCount), r).

(** The stored history of a key, empty for a key never seen. *)
Definition history (r : RateLimiter) (customerID : string) : list Time :=
  default [] (requests r !! customerID).

(** A sequence of [IsAllowed] calls for one key, with their answers. *)
Fixpoint IsAllowedAll (r : RateLimiter) (customerID : string) (ats : list Time)
    : list bool * RateLimiter :=
  match ats with
  | [] => ([], r)
  | createdAt :: rest =>
      let '(b, r1) := IsAllowed r customerID createdAt in
      let '(bs, r2) := IsAllowedAll r1 customerID rest in
      (b :: bs, r2)
  end.

(** Any sequence of [IsAllowed] calls, over any keys; the answers are
    dropped. *)
Definition run (r : RateLimiter) (calls : list (string * Time)) : RateLimiter :=
  fold_left (fun r0 c => snd (IsAllowed r0 (fst c) (snd c))) calls r.

(** The invariant of the limiter: no history is longer than the limit. *)
Definition bounded (r : RateLimiter) : Prop :=
  ∀ k stored, requests r !! k = Some stored →
    Z.of_nat (length stored) <= requestsPerMinute r.

(** The timestamps of the calls that were answered [true]. *)
Fixpoint accepted (ats : list Time) (answers : list bool) : list Time :=
  match ats, answers with
  | createdAt :: ats', b :: answers' =>
      if b then createdAt :: accepted ats' answers' else accepted ats' answers'
  | _, _ => []
  end.


End ratelimiter.

(** ** Go's [regexp] package, for the one pattern the program compiles *)

Module regexp.

(** Patterns over bytes.  The classes of the program's pattern hold ASCII
    characters only, so a byte of a multi-byte rune matches none of them,
    as the rune itself does not. *)
Inductive Regexp : Type :=
| NoMatch
| EmptyMatch
| CharClass (p : ascii -> bool)
| Concat (r1 r2 : Regexp)
| Alternate (r1 r2 : Regexp)
| Star (r : Regexp).

(** [x+] *)
Definition Plus (r : Regexp) : Regexp := Concat r (Star r).
(** [x?] *)
Definition Quest (r : Regexp) : Regexp := Alternate r EmptyMatch.
(** A single literal byte. *)
Definition Literal (c : ascii) : Regexp := CharClass (Ascii.eqb c).

(** [x{0,n}], as nested optional copies. *)
Fixpoint upTo (r : Regexp) (n : nat) : Regexp :=
  match n with
  | O => EmptyMatch
  | S k => Quest (Concat r (upTo r k))
  end.

(** [x{min,min+extra}] *)
Fixpoint Repeat (r : Regexp) (min extra : nat) : Regexp :=
  match min with
  | O => upTo r extra
  | S k => Concat r (Repeat r k extra)
  end.

Fixpoint nullable (r : Regexp) : bool :=
  match r with
  | NoMatch => false
  | EmptyMatch => true
  | CharClass _ => false
  | Concat r1 r2 => nullable r1 && nullable r2
  | Alternate r1 r2 => nullable r1 || nullable r2
  | Star _ => true
  end.

(** What is left of the pattern once the byte [c] has been read. *)
Fixpoint derive (c : ascii) (r : Regexp) : Regexp :=
  match r with
  | NoMatch => NoMatch
  | EmptyMatch => NoMatch
  | CharClass p => if p c then EmptyMatch else NoMatch
  | Concat r1 r2 =>
      if nullable r1
      then Alternate (Concat (derive c r1) r2) (derive c r2)
      else Concat (derive c r1) r2
  | Alternate r1 r2 => Alternate (derive c r1) (derive c r2)
  | Star r1 => Concat (derive c r1) (Star r1)
  end.

Definition matchBytes (r : Regexp) (s : list ascii) : bool :=
  nullable (fold_left (fun r0 c => derive c r0) s r).

(** [MatchString] of a pattern written between [^] and [$] (without the
    multi-line flag): the whole text has to match. *)
Definition MatchString (r : Regexp) (s : string) : bool :=
  matchBytes r (list_ascii_of_string s).

(** The texts a pattern denotes. *)
Inductive Matches : Regexp -> list ascii -> Prop :=
| MEmpty : Matches EmptyMatch []
| MClass (p : ascii -> bool) (c : ascii) : p c = true -> Matches (CharClass p) [c]
| MConcat r1 r2 s1 s2 :
    Matches r1 s1 -> Matches r2 s2 -> Matches (Concat r1 r2) (s1 ++ s2)
| MAltL r1 r2 s : Matches r1 s -> Matches (Alternate r1 r2) s
| MAltR r1 r2 s : Matches r2 s -> Matches (Alternate r1 r2) s
| MStarNil r : Matches (Star r) []
| MStarApp r s1 s2 :
    Matches r s1 -> Matches (Star r) s2 -> Matches (Star r) (s1 ++ s2).

End regexp.

(** ** Package [types] *)

Module types.

Record Sample : Type := mkSample {
  CustomerID : string;
  Email : string;
  Name : string;
  CreatedAt : Time;
  UpdatedAt : Time
}.

End types.

(** ** The world outside the process *)

Module runtime.

(** One block appended to [error.log]. *)
Record ErrorEntry : Type := mkErrorEntry {
  entryStatus : string;
  entryCustomerId : string;
  entryReason : string;
  entryCreatedAt : Time
}.

(** A Go [error]: [None] is [nil], [Some msg] an error with that message. *)
Definition error : Type := option string.

(** How the outside answers the [n]-th interaction of the process with it. *)
Record Oracle : Type := mkOracle {
  Now : nat -> Time;
  OpenFile : nat -> error;
  WriteString : nat -> error;
  InsertOne : nat -> types.Sample -> error;
  Open : nat -> string -> string + string
}.

(** The validator's counter, the rate limiter, and what the process has
    done to the outside so far. *)
Record State : Type := mkState {
  errorCount : Z;
  rateLimiter : ratelimiter.RateLimiter;
  errorLog : list ErrorEntry;
  inserted : list types.Sample;
  tick : nat
}.

Definition M (A : Type) : Type := State -> A * State.

Definition ret {A : Type} (a : A) : M A := fun s => (a, s).

Definition bind {A B : Type} (m : M A) (f : A -> M B) : M B :=
  fun s => let '(a, s1) := m s in f a s1.

Definition step (s : State) : State :=
  {| errorCount := errorCount s; rateLimiter := rateLimiter s;
     errorLog := errorLog s; inserted := inserted s; tick := S (tick s) |}.

(** From [s] to [s'] nothing was logged, counted, rate-checked or stored. *)
Definition untouched (s s' : State) : Prop :=
  errorCount s' = errorCount s ∧ rateLimiter s' = rateLimiter s
  ∧ errorLog s' = errorLog s ∧ inserted s' = inserted s.

(** From [s] to [s'] exactly one rejection was logged, for [customerID] with
    [reason], and counted; nothing was stored. *)
Definition rejected (customerID reason : string) (s s' : State) : Prop :=
  errorCount s' = GoInt.wrap (errorCount s + 1)
  ∧ (∃ now, errorLog s' = errorLog s ++ [mkErrorEntry "error" customerID reason now])
  ∧ inserted s' = inserted s.

(** One step of the log and the counter: nothing, or one entry for the
    customer together with one count. *)
Definition logStep (customerID : string) (s s' : State) : Prop :=
  (errorLog s' = errorLog s ∧ errorCount s' = errorCount s)
  ∨ (∃ reason now,
       errorLog s' = errorLog s ++ [mkErrorEntry "error" customerID reason now]
       ∧ errorCount s' = GoInt.wrap (errorCount s + 1)).

(** Every attempt to open and to append to [error.log] succeeds. *)
Definition logWritable (world : Oracle) : Prop :=
  ∀ n, OpenFile world n = None ∧ WriteString world n = None.

End runtime.

Import runtime.

Notation "x <- m ;; k" := (bind m (fun x => k))
  (at level 100, m at next level, right associativity).
Notation "m ;;; k" := (bind m (fun _ => k))
  (at level 100, right associativity).

(** ** Package [validator] *)

Module validator.

Definition isLower (c : ascii) : bool := (("a" <=? c) && (c <=? "z"))%char.
Definition isDigit (c : ascii) : bool := (("0" <=? c) && (c <=? "9"))%char.
Definition oneOf (set : string) (c : ascii) : bool :=
  existsb (Ascii.eqb c) (list_ascii_of_string set).

(** [[a-z0-9._%+\-]] *)
Definition localClass (c : ascii) : bool := isLower c || isDigit c || oneOf "._%+-" c.
(** [[a-z0-9.\-]] *)
Definition domainClass (c : ascii) : bool := isLower c || isDigit c || oneOf ".-" c.

(** [^[a-z0-9._%+\-]+@[a-z0-9.\-]+\.[a-z]{2,4}$] *)
Definition emailRegex : regexp.Regexp :=
  regexp.Concat (regexp.Plus (regexp.CharClass localClass))
    (regexp.Concat (regexp.Literal "@")
      (regexp.Concat (regexp.Plus (regexp.CharClass domainClass))
        (regexp.Concat (regexp.Literal ".")
          (regexp.Repeat (regexp.CharClass isLower) 2 2)))).

Definition isValidEmail (email : string) : bool :=
  regexp.MatchString emailRegex email.

Section Methods.

Variable world : Oracle.

Definition timeNow : M Time :=
  fun s => (Now world (tick s), step s).

(** [os.OpenFile("error.log", O_APPEND|O_CREATE|O_WRONLY, 0644)] *)
Definition openErrorLog : M error :=
  fun s => (OpenFile world (tick s), step s).

(** [file.WriteString(errorLog)]: the block reaches the file when the
    write succeeds. *)
Definition writeString (entry : ErrorEntry) : M error :=
  fun s =>
    match WriteString world (tick s) with
    | Some e => (Some e, step s)
    | None =>
        (None,
         step {| errorCount := errorCount s; rateLimiter := rateLimiter s;
                 errorLog := errorLog s ++ [entry]; inserted := inserted s;
                 tick := tick s |})
    end.

(** [v.errorCount++] *)
Definition incErrorCount : M unit :=
  fun s =>
    (tt, {| errorCount := GoInt.wrap (errorCount s + 1);
            rateLimiter := rateLimiter s; errorLog := errorLog s;
            inserted := inserted s; tick := tick s |}).

Definition writeErrorLog (customerID reason : string) : M error :=
  err <- openErrorLog ;;
  match err with
  | Some e => ret (Some ("failed to open error log: " +:+ e))
  | None =>
      now <- timeNow ;;
      err <- writeString (mkErrorEntry "error" customerID reason now) ;;
      match err with
      | Some e => ret (Some ("failed to write to error log: " +:+ e))
      | None => incErrorCount ;;; ret None
      end
  end.

Definition WriteErrorLog (customerID reason : string) : M error :=
  writeErrorLog customerID reason.

Definition GetErrorCount : M Z := fun s => (errorCount s, s).

(** [sample] is a parameter passed by value.  The first component of the
    result is the method's own copy of it when the method returns; the
    caller's struct is the argument, as it was. *)
Definition ValidateSample (sample : types.Sample) : M (types.Sample * error) :=
  if (types.CustomerID sample =? "")%string then
    writeErrorLog (types.CustomerID sample) "customer_id is required" ;;;
    ret (sample, Some "customer_id is required")
  else if negb (isValidEmail (types.Email sample)) then
    writeErrorLog (types.CustomerID sample) "invalid email format" ;;;
    ret (sample, Some "invalid email format")
  else if (types.Name sample =? "")%string then
    writeErrorLog (types.CustomerID sample) "name is required" ;;;
    ret (sample, Some "name is required")
  else if IsZero (types.CreatedAt sample) then
    writeErrorLog (types.CustomerID sample) "created_at is required" ;;;
    ret (sample, Some "created_at is required")
  else if IsZero (types.UpdatedAt sample) then
    now <- timeNow ;;
    ret (types.mkSample (types.CustomerID sample) (types.Email sample)
           (types.Name sample) (types.CreatedAt sample) now, None)
  else ret (sample, None).

End Methods.

End validator.

(** ** Package [service] *)

Module service.

Record CustomSample : Type := mkCustomSample {
  CustomerID : string;
  Email : string;
  Name : string;
  CreatedAt : string
}.

Record ProcessResult : Type := mkProcessResult {
  SuccessCount : Z;
  ErrorCount : Z
}.

Section Methods.

Variable world : Oracle.
(** [time.Parse(time.RFC3339, _)]: the error or the instant. *)
Variable timeParse : string -> string + Time.
(** [json.NewDecoder(jsonFile).Decode(&data)] on a file holding these
    bytes: the error or [data.Samples]. *)
Variable jsonDecode : string -> string + list CustomSample.

(** [s.rateLimiter.IsAllowed] *)
Definition isAllowed (customerID : string) (createdAt : Time) : M bool :=
  fun s =>
    let '(b, r) := ratelimiter.IsAllowed (rateLimiter s) customerID createdAt in
    (b, {| errorCount := errorCount s; rateLimiter := r;
           errorLog := errorLog s; inserted := inserted s; tick := tick s |}).

(** [s.db.InsertSample]: the sink keeps what it accepts. *)
Definition InsertSample (sample : types.Sample) : M error :=
  fun s =>
    match InsertOne world (tick s) sample with
    | Some e => (Some e, step s)
    | None =>
        (None,
         step {| errorCount := errorCount s; rateLimiter := rateLimiter s;
                 errorLog := errorLog s; inserted := inserted s ++ [sample];
                 tick := tick s |})
    end.

(** [os.Open(filepath)]: the error or the bytes of the file. *)
Definition osOpen (filepath : string) : M (string + string) :=
  fun s => (Open world (tick s) filepath, step s).

Definition ProcessSample (cs : CustomSample) : M error :=
  match timeParse (CreatedAt cs) with
  | inl e =>
      validator.WriteErrorLog world (CustomerID cs)
        ("invalid date format: " +:+ CreatedAt cs) ;;;
      ret (Some e)
  | inr createdAt =>
      let sample :=
        types.mkSample (CustomerID cs) (Email cs) (Name cs) createdAt zeroTime in
      validated <- validator.ValidateSample world sample ;;
      match snd validated with
      | Some e => ret (Some e)
      | None =>
          allowed <- isAllowed (types.CustomerID sample) (types.CreatedAt sample) ;;
          if negb allowed then
            validator.WriteErrorLog world (types.CustomerID sample)
              "rate limit exceeded" ;;;
            ret (Some "rate limit exceeded")
          else
            err <- InsertSample sample ;;
            match err with
            | Some e =>
                validator.WriteErrorLog world (types.CustomerID sample)
                  ("failed to insert: " +:+ e) ;;;
                ret (Some e)
            | None => ret None
            end
      end
  end.

(** The loop of [ProcessSamples]; [successCount] is bounded by the length
    of the slice. *)
Fixpoint processLoop (samples : list CustomSample) (successCount : Z) : M Z :=
  match samples with
  | [] => ret successCount
  | cs :: rest =>
      err <- ProcessSample cs ;;
      processLoop rest
        (match err with None => successCount + 1 | Some _ => successCount end)
  end.

Definition ProcessSamples (samples : list CustomSample) : M (ProcessResult * error) :=
  successCount <- processLoop samples 0 ;;
  errors <- validator.GetErrorCount ;;
  ret (mkProcessResult successCount errors, None).

Definition ProcessSamplesFile (filepath : string) : M (ProcessResult * error) :=
  opened <- osOpen filepath ;;
  match opened with
  | inl e => ret (mkProcessResult 0 0, Some ("error opening file: " +:+ e))
  | inr contents =>
      match jsonDecode contents with
      | inl e => ret (mkProcessResult 0 0, Some ("error decoding JSON: " +:+ e))
      | inr samples => ProcessSamples samples
      end
  end.

End Methods.

(** The record [ProcessSample] builds from a raw one whose timestamp parses
    and which no rule of [ValidateSample] rejects; [None] for the others. *)
Definition passes (timeParse : string -> string + Time) (cs : CustomSample)
    : option types.Sample :=
  match timeParse (CreatedAt cs) with
  | inl _ => None
  | inr createdAt =>
      if negb (CustomerID cs =? "")%string
         && validator.isValidEmail (Email cs)
         && negb (Name cs =? "")%string
         && negb (IsZero createdAt)
      then Some (types.mkSample (CustomerID cs) (Email cs) (Name cs) createdAt zeroTime)
      else None
  end.

(** The [IsAllowed] call made for a record that passes. *)
Definition rateCall (sample : types.Sample) : string * Time :=
  (types.CustomerID sample, types.CreatedAt sample).

(** The sink accepts every insert. *)
Definition sinkAccepts (world : Oracle) : Prop :=
  ∀ n sample, InsertOne world n sample = None.

(** What [main] builds: [NewValidator(db)], [NewRateLimiter(limit)] and
    [NewSampleService(v, r, db)], before anything has happened. *)
Definition NewSampleService (limit : Z) : State :=
  {| errorCount := 0; rateLimiter := ratelimiter.NewRateLimiter limit;
     errorLog := []; inserted := []; tick := 0 |}.

End service.

(** ** The in-memory database of the service tests *)

Module service_test.

(** [type MockDatabase struct { samples map[string]types.Sample }] *)
Record MockDatabase : Type := mkMockDatabase {
  samples : gmap string types.Sample
}.

Definition NewMockDatabase : MockDatabase := {| samples := ∅ |}.

(** The zero value [types.Sample{}]. *)
Definition zeroSample : types.Sample := types.mkSample "" "" "" zeroTime zeroTime.

Definition Init (m : MockDatabase) : error * MockDatabase := (None, m).

Definition InsertSample (m : MockDatabase) (sample : types.Sample)
    : error * MockDatabase :=
  (None, {| samples := <[types.CustomerID sample := sample]> (samples m) |}).

Definition GetSample (m : MockDatabase) (customerID : string)
    : (types.Sample * error) * MockDatabase :=
  match samples m !! customerID with
  | Some sample => ((sample, None), m)
  | None => ((zeroSample, None), m)
  end.

Definition UpdateSample (m : MockDatabase) (sample : types.Sample)
    : error * MockDatabase :=
  (None, {| samples := <[types.CustomerID sample := sample]> (samples m) |}).

Definition DeleteSample (m : MockDatabase) (customerID : string)
    : error * MockDatabase :=
  (None, {| samples := delete customerID (samples m) |}).

(** The database after the sink calls of a run, one [InsertSample] per
    accepted record, in order. *)
Definition afterInserts (m : MockDatabase) (inserts : list types.Sample) : MockDatabase :=
  fold_left (fun m0 sample => snd (InsertSample m0 sample)) inserts m.

End service_test.

(** ** The email grammar, in the words of the specification *)

Module grammar.

Definition lowercaseLetter (c : ascii) : Prop :=
  c ∈ list_ascii_of_string "abcdefghijklmnopqrstuvwxyz".
Definition uppercaseLetter (c : ascii) : Prop :=
  c ∈ list_ascii_of_string "ABCDEFGHIJKLMNOPQRSTUVWXYZ".
Definition digit (c : ascii) : Prop :=
  c ∈ list_ascii_of_string "0123456789".

(** lowercase letters, digits, and the set [. _ % + -] *)
Definition localChar (c : ascii) : Prop :=
  lowercaseLetter c ∨ digit c ∨ c ∈ list_ascii_of_string "._%+-".
(** lowercase letters, digits, [.] and [-] *)
Definition domainChar (c : ascii) : Prop :=
  lowercaseLetter c ∨ digit c ∨ c ∈ list_ascii_of_string ".-".

(** A local part of one or more characters, an [@], a domain of one or more
    characters, a literal [.], a top-level label of 2 to 4 lowercase
    letters. *)
Definition email (text : string) : Prop :=
  ∃ localPart domain label : list ascii,
    list_ascii_of_string text
      = localPart ++ "@"%char :: domain ++ "."%char :: label
    ∧ (1 ≤ length localPart)%nat ∧ Forall localChar localPart
    ∧ (1 ≤ length domain)%nat ∧ Forall domainChar domain
    ∧ (2 ≤ length label ≤ 4)%nat ∧ Forall lowercaseLetter label.

End grammar.

(** ** JSON values and their text *)

Module json.

#[local] Set Warnings "-register-all".

Inductive Value : Type :=
| JNull
| JBool (b : bool)
| JNumber (literal : string)
| JString (text : string)
| JArray (items : list Value)
| JObject (members : list (string * Value)).

(** The double quote. *)
Definition quote : string := String "034"%char EmptyString.

(** The text of a value whose strings and member names need no escape. *)
Fixpoint render (v : Value) : string :=
  match v with
  | JNull => "null"
  | JBool true => "true"
  | JBool false => "false"
  | JNumber literal => literal
  | JString text => quote +:+ text +:+ quote
  | JArray items =>
      "[" +:+
      (fix renderItems (l : list Value) : string :=
         match l with
         | [] => ""
         | x :: l' =>
             match l' with
             | [] => render x
             | _ :: _ => render x +:+ "," +:+ renderItems l'
             end
         end) items
      +:+ "]"
  | JObject members =>
      "{" +:+
      (fix renderMembers (l : list (string * Value)) : string :=
         match l with
         | [] => ""
         | (name, x) :: l' =>
             match l' with
             | [] => quote +:+ name +:+ quote +:+ ":" +:+ render x
             | _ :: _ =>
                 quote +:+ name +:+ quote +:+ ":" +:+ render x +:+ "," +:+ renderMembers l'
             end
         end) members
      +:+ "}"
  end.

(** The batch container: an object whose member [samples] is an array. *)
Definition container (records : list Value) : Value :=
  JObject [("samples", JArray records)].

(** Texts that are well-formed JSON of the shape of the container, whatever
    the records are. *)
Definition wellFormedContainer (contents : string) : Prop :=
  ∃ records, contents = render (container records).

End json.

(** ** Concrete data used to exercise the statements *)

Module fixture.

(** 2024-03-26 12:00:00 UTC, the base time of the package's tests: 738970
    days and 12 hours after the zero time. *)
Definition baseTime : Time := (738970 * 86400 + 12 * 3600) * Second.

(** A limiter for which ["c1"] made one accepted request at [baseTime]. *)
Definition oneRequest (limit : Z) : ratelimiter.RateLimiter :=
  snd (ratelimiter.IsAllowed (ratelimiter.NewRateLimiter limit) "c1" baseTime).

(** A world in which nothing fails: the clock stands an hour after
    [baseTime] and advances by a nanosecond per interaction, the log and the
    sink accept everything, and [samples.json] is the only file. *)
Definition calm : Oracle :=
  {| Now := fun n => baseTime + 3600 * Second + Z.of_nat n;
     OpenFile := fun _ => None;
     WriteString := fun _ => None;
     InsertOne := fun _ _ => None;
     Open := fun _ path =>
       if (path =? "samples.json")%string then inr "{}"
       else inl "open: no such file or directory" |}.

(** As [calm], but [error.log] cannot be opened. *)
Definition readOnlyDisk : Oracle :=
  {| Now := Now calm;
     OpenFile := fun _ => Some "permission denied";
     WriteString := WriteString calm;
     InsertOne := InsertOne calm;
     Open := Open calm |}.

(** [time.Parse(time.RFC3339, _)] on the strings used below; every other
    string stands for one that does not parse. *)
Definition parseRFC3339 (value : string) : string + Time :=
  if (value =? "2024-03-26T12:00:00Z")%string then inr baseTime
  else if (value =? "0001-01-01T00:00:00Z")%string then inr zeroTime
  else inl "parsing time: cannot parse as RFC3339".

(** The decoder on the bytes used below: [{}] holds no samples, anything
    else stands for malformed JSON. *)
Definition decodeSamples (contents : string) : string + list service.CustomSample :=
  if (contents =? "{}")%string then inr []
  else inl "invalid character looking for beginning of value".

(** A world like [calm] whose [samples.json] holds the two records [john]
    and [notAnEmail]; the text stands for the JSON of the file. *)
Definition inbox : Oracle :=
  {| Now := Now calm;
     OpenFile := OpenFile calm;
     WriteString := WriteString calm;
     InsertOne := InsertOne calm;
     Open := fun _ path =>
       if (path =? "samples.json")%string then inr "samples: john, notAnEmail"
       else inl "open: no such file or directory" |}.

Definition john : service.CustomSample :=
  service.mkCustomSample "1" "john@example.com" "John Doe" "2024-03-26T12:00:00Z".

Definition notAnEmail : service.CustomSample :=
  service.mkCustomSample "3" "not-an-email" "Invalid Email" "2024-03-26T12:00:00Z".

(** The decoder on the bytes of [inbox]'s file. *)
Definition decodeInbox (contents : string) : string + list service.CustomSample :=
  if (contents =? "samples: john, notAnEmail")%string then inr [john; notAnEmail]
  else inl "invalid character looking for beginning of value".

(** A container with one record whose customer id is the number 5. *)
Definition wrongTyped : json.Value :=
  json.container [json.JObject [("customerId", json.JNumber "5")]].

(** A world like [calm] whose [samples.json] holds the text of
    [wrongTyped]. *)
Definition typedBatch : Oracle :=
  {| Now := Now calm;
     OpenFile := OpenFile calm;
     WriteString := WriteString calm;
     InsertOne := InsertOne calm;
     Open := fun _ path =>
       if (path =? "samples.json")%string then inr (json.render wrongTyped)
       else inl "open: no such file or directory" |}.

(** The decoder on the bytes of [typedBatch]'s file: [Decode] cannot store
    the number in the string field [CustomerID] and returns an
    [UnmarshalTypeError], whose message the text below stands for. *)
Definition decodeTyped (contents : string) : string + list service.CustomSample :=
  if (contents =? json.render wrongTyped)%string
  then inl "json: cannot unmarshal number into a field of type string"
  else inl "invalid character looking for beginning of value".

Definition notADate : service.CustomSample :=
  service.mkCustomSample "" "date@example.com" "Invalid Date" "not-a-date".

End fixture.

(** * Properties *)

(** ** [ratelimiter] *)

Section RateLimiterFacts.

Import ratelimiter.

Lemma inWindow_spec windowStart t :
  inWindow windowStart t = true ↔ windowStart <= t.
Proof.
  unfold inWindow, After, Equal.
  rewrite orb_true_iff, Z.ltb_lt, Z.eqb_eq. lia.
Qed.

Lemma validRequestsOf_acc windowStart stored acc :
  fold_left
    (fun validRequests t =>
       if inWindow windowStart t then validRequests ++ [t] else validRequests)
    stored acc
  = acc ++ filter (fun t => windowStart <= t) stored.
Proof.
  revert acc. induction stored as [|t stored IH]; intros acc; simpl.
  - by rewrite app_nil_r.
  - rewrite IH, filter_cons. destruct (inWindow windowStart t) eqn:Hw.
    + apply inWindow_spec in Hw. rewrite decide_True by done.
      by rewrite <- app_assoc.
    + rewrite decide_False; [done|]. intros Hle.
      apply inWindow_spec in Hle. congruence.
Qed.

(** The pruning loop is a filter that keeps the order of the history. *)
Lemma validRequestsOf_filter windowStart stored :
  validRequestsOf windowStart stored = filter (fun t => windowStart <= t) stored.
Proof. unfold validRequestsOf. by rewrite validRequestsOf_acc. Qed.

Lemma filter_all_kept (P : Time → Prop) `{!∀ t, Decision (P t)} (l : list Time) :
  (∀ t, t ∈ l → P t) → filter P l = l.
Proof.
  induction l as [|t l IH]; intros Hall; [done|].
  rewrite filter_cons, decide_True by (apply Hall; left).
  f_equal. apply IH. intros u Hu. apply Hall. by right.
Qed.

Lemma filter_same (P Q : Time → Prop) `{!∀ t, Decision (P t)}
    `{!∀ t, Decision (Q t)} (l : list Time) :
  (∀ t, t ∈ l → (P t ↔ Q t)) → filter P l = filter Q l.
Proof.
  induction l as [|t l IH]; intros Hall; [done|].
  rewrite !filter_cons, IH by (intros u Hu; apply Hall; by right).
  destruct (Hall t ltac:(left)) as [HPQ HQP].
  destruct (decide (P t)), (decide (Q t)); tauto || done.
Qed.

Lemma lookup_setRequests r k ts :
  requests (setRequests r k ts) !! k = Some ts.
Proof. apply lookup_insert_eq. Qed.

Lemma lookup_setRequests_ne r k k' ts :
  k ≠ k' → requests (setRequests r k ts) !! k' = requests r !! k'.
Proof. intros. by apply lookup_insert_ne. Qed.

Lemma setRequests_twice r k ts ts' :
  setRequests (setRequests r k ts) k ts' = setRequests r k ts'.
Proof. unfold setRequests; simpl. by rewrite insert_insert_eq. Qed.

(** [IsAllowed] on a key never seen: the call is allowed whatever the limit. *)
Lemma IsAllowed_unseen r k createdAt :
  requests r !! k = None →
  IsAllowed r k createdAt = (true, setRequests r k [createdAt]).
Proof. intros Hk. unfold IsAllowed. by rewrite Hk. Qed.

(** [IsAllowed] on a key with a history: prune, count, append below the
    limit. *)
Lemma IsAllowed_seen r k createdAt stored :
  requests r !! k = Some stored →
  IsAllowed r k createdAt =
    let kept := filter (fun t => createdAt - Minute <= t) stored in
    if Z.of_nat (length kept) <? requestsPerMinute r
    then (true, setRequests r k (kept ++ [createdAt]))
    else (false, setRequests r k kept).
Proof.
  intros Hk. unfold IsAllowed. rewrite Hk. cbv zeta.
  rewrite validRequestsOf_filter, setRequests_twice. unfold Add. simpl requestsPerMinute.
  replace (createdAt + -1 * Minute) with (createdAt - Minute) by lia.
  done.
Qed.

Lemma filter_none_kept (P : Time → Prop) `{!∀ t, Decision (P t)} (l : list Time) :
  (∀ t, t ∈ l → ¬ P t) → filter P l = [].
Proof.
  induction l as [|t l IH]; intros Hall; [done|].
  rewrite filter_cons, decide_False by (apply Hall; left).
  apply IH. intros u Hu. apply Hall. by right.
Qed.

(** The first call after everything stored for the key has left the window,
    or for a key never seen: allowed, and the history is that one call. *)
Lemma IsAllowed_stale r k createdAt :
  1 <= requestsPerMinute r →
  (∀ u, u ∈ history r k → u < createdAt - Minute) →
  IsAllowed r k createdAt = (true, setRequests r k [createdAt]).
Proof.
  intros HN Hold. unfold history in Hold.
  destruct (requests r !! k) as [stored|] eqn:Hk; [|by apply IsAllowed_unseen].
  rewrite (IsAllowed_seen _ _ _ _ Hk). cbv zeta. simpl in Hold.
  rewrite filter_none_kept by (intros u Hu; specialize (Hold u Hu); lia).
  cbn [length app]. change (Z.of_nat 0) with 0.
  destruct (0 <? requestsPerMinute r) eqn:Hlt; [done|].
  apply Z.ltb_ge in Hlt. lia.
Qed.



End RateLimiterFacts.

Section RateLimiterClaims.

Import ratelimiter.

(** With the exact window start: what is kept, counted and left behind. *)
Lemma IsAllowed_prunes_exact r k createdAt stored :
  requests r !! k = Some stored →
  let kept := filter (fun t => createdAt - Minute <= t) stored in
  let '(allowed, r') := IsAllowed r k createdAt in
  (∀ t, t ∈ kept ↔ t ∈ stored ∧ createdAt - Minute <= t)
  ∧ (createdAt - Minute ∈ stored → createdAt - Minute ∈ kept)
  ∧ allowed = bool_decide (Z.of_nat (length kept) < requestsPerMinute r)
  ∧ history r' k = (if allowed then kept ++ [createdAt] else kept).
Proof.
  intros Hk. rewrite (IsAllowed_seen _ _ _ _ Hk). cbv zeta.
  set (kept := filter (fun t => createdAt - Minute <= t) stored).
  assert (∀ t, t ∈ kept ↔ t ∈ stored ∧ createdAt - Minute <= t) as Hmem.
  { intros t. unfold kept. rewrite list_elem_of_filter. tauto. }
  destruct (Z.of_nat (length kept) <? requestsPerMinute r) eqn:Hlt;
    cbv beta iota; (split; [exact Hmem|]); (split; [intros Hin; apply Hmem; split; [done|lia]|]);
    unfold history; rewrite lookup_setRequests; simpl; split; try done.
  - symmetry. apply bool_decide_eq_true. by apply Z.ltb_lt.
  - symmetry. apply bool_decide_eq_false. apply Z.ltb_ge in Hlt. lia.
Qed.








Lemma bounded_setRequests r k ts :
  bounded r → Z.of_nat (length ts) <= requestsPerMinute r →
  bounded (setRequests r k ts).
Proof.
  intros Hr Hts k' stored. unfold setRequests; simpl.
  rewrite lookup_insert. case_decide; [by intros [= <-]|]. apply Hr.
Qed.

Lemma IsAllowed_bounded r k createdAt :
  1 <= requestsPerMinute r → bounded r → bounded (snd (IsAllowed r k createdAt)).
Proof.
  intros HN Hr. destruct (requests r !! k) as [stored|] eqn:Hk.
  - rewrite (IsAllowed_seen _ _ _ _ Hk). cbv zeta.
    pose proof (length_filter (fun t => createdAt - Minute <= t) stored) as Hlen.
    specialize (Hr k stored Hk) as Hst.
    destruct (_ <? _) eqn:Hlt; simpl; apply bounded_setRequests; try done.
    + apply Z.ltb_lt in Hlt. rewrite length_app. simpl. lia.
    + lia.
  - rewrite (IsAllowed_unseen _ _ _ Hk). simpl.
    apply bounded_setRequests; [done|simpl; lia].
Qed.

Lemma IsAllowed_limit r k createdAt :
  requestsPerMinute (snd (IsAllowed r k createdAt)) = requestsPerMinute r.
Proof.
  unfold IsAllowed. destruct (requests r !! k); [|done].
  cbv zeta. by destruct (_ <? _).
Qed.

Lemma run_bounded r calls :
  1 <= requestsPerMinute r → bounded r →
  bounded (run r calls) ∧ requestsPerMinute (run r calls) = requestsPerMinute r.
Proof.
  revert r. induction calls as [|[k t] calls IH]; intros r HN Hr; [done|].
  simpl. destruct (IH (snd (IsAllowed r k t))) as [Hb Hl].
  - by rewrite IsAllowed_limit.
  - by apply IsAllowed_bounded.
  - split; [done|]. by rewrite Hl, IsAllowed_limit.
Qed.

Lemma validCountOf_acc windowStart times acc :
  fold_left
    (fun validCount t => if inWindow windowStart t then validCount + 1 else validCount)
    times acc
  = acc + Z.of_nat (length (filter (fun t => windowStart <= t) times)).
Proof.
  revert acc. induction times as [|t times IH]; intros acc; simpl; [lia|].
  rewrite IH, filter_cons. destruct (inWindow windowStart t) eqn:Hw.
  - apply inWindow_spec in Hw. rewrite decide_True by done. simpl. lia.
  - rewrite decide_False; [done|]. intros Hle. apply inWindow_spec in Hle. congruence.
Qed.

(** The counting loop counts the stored timestamps inside the window. *)
Lemma validCountOf_filter windowStart times :
  validCountOf windowStart times
  = Z.of_nat (length (filter (fun t => windowStart <= t) times)).
Proof. unfold validCountOf. by rewrite validCountOf_acc. Qed.

Lemma wrap_inRange z : GoInt.inRange z → GoInt.wrap z = z.
Proof.
  unfold GoInt.inRange, GoInt.minInt, GoInt.maxInt, GoInt.wrap. intros Hz.
  rewrite Z.mod_small; lia.
Qed.

(** C10.  For a limiter built with a limit [N >= 1] (an [int]), after any
    sequence of [IsAllowed] calls every key's stored history holds at most
    [N] timestamps, and [GetRemainingRequests] returns a value between 0 and
    [N] inclusive whatever the clock reads. *)
Theorem history_at_most_limit N calls k now :
  1 <= N <= GoInt.maxInt →
  let r := run (NewRateLimiter N) calls in
  Z.of_nat (length (history r k)) <= N
  ∧ 0 <= fst (GetRemainingRequests r k now) <= N.
Proof.
  intros HN r.
  destruct (run_bounded (NewRateLimiter N) calls) as [Hb Hl]; [simpl; lia| |].
  { intros k' stored. simpl. by rewrite lookup_empty. }
  fold r in Hb, Hl. simpl in Hl.
  assert (Z.of_nat (length (history r k)) <= N) as Hh.
  { unfold history. destruct (requests r !! k) as [stored|] eqn:Hk; simpl; [|lia].
    rewrite <- Hl. by apply (Hb k). }
  split; [done|]. unfold GetRemainingRequests, history in *. simpl. rewrite Hl.
  destruct (requests r !! k) as [stored|] eqn:Hk; simpl in *.
  - rewrite validCountOf_filter.
    pose proof (length_filter (fun t => Add now (-1 * Minute) <= t) stored).
    rewrite wrap_inRange; [lia|].
    unfold GoInt.inRange, GoInt.minInt, GoInt.maxInt in *. lia.
  - rewrite wrap_inRange; [lia|].
    unfold GoInt.inRange, GoInt.minInt, GoInt.maxInt in *. lia.
Qed.

Lemma history_at_most_limit_witness :
  let r := run (NewRateLimiter 1)
             [("c1", fixture.baseTime); ("c1", fixture.baseTime); ("c2", fixture.baseTime)] in
  1 <= 1 <= GoInt.maxInt
  ∧ Z.of_nat (length (history r "c1")) <= 1
  ∧ 0 <= fst (GetRemainingRequests r "c1" fixture.baseTime) <= 1.
Proof.
  intros r. assert (1 <= 1 <= GoInt.maxInt) as HN by (vm_compute; split; discriminate).
  split; [exact HN|].
  exact (history_at_most_limit 1
           [("c1", fixture.baseTime); ("c1", fixture.baseTime); ("c2", fixture.baseTime)]
           "c1" fixture.baseTime HN).
Defined.

(** The bound of C10 needs [N >= 1]: with the limit 0 the first call for a
    key still seeds one timestamp, and [GetRemainingRequests] answers -1. *)
Example limit_zero_history_exceeds :
  let r := run (NewRateLimiter 0) [("c1", fixture.baseTime)] in
  history r "c1" = [fixture.baseTime]
  ∧ fst (GetRemainingRequests r "c1" fixture.baseTime) = -1.
Proof. split; vm_compute; reflexivity. Qed.

(** C9 (amended).  [GetRemainingRequests] is read-only: it leaves the
    limiter, and so every key's stored history, as it was.  Two calls with no
    [IsAllowed] call in between return the same value whenever the two clock
    readings put the same stored timestamps of the key inside the trailing
    60 seconds, in particular when the clock reads the same. *)
Theorem GetRemainingRequests_read_only r k now1 now2 :
  (∀ t, t ∈ history r k → (now1 - Minute <= t ↔ now2 - Minute <= t)) →
  let '(n1, r1) := GetRemainingRequests r k now1 in
  let '(n2, r2) := GetRemainingRequests r1 k now2 in
  r1 = r ∧ r2 = r ∧ n1 = n2.
Proof.
  intros Hsame. unfold GetRemainingRequests, history in *.
  split; [done|split; [done|]]. f_equal. f_equal.
  destruct (requests r !! k) as [stored|]; [|done]. simpl in Hsame.
  rewrite !validCountOf_filter. f_equal. f_equal.
  apply filter_same. intros t Ht. unfold Add.
  specialize (Hsame t Ht). lia.
Qed.

Lemma GetRemainingRequests_read_only_witness :
  fst (GetRemainingRequests (fixture.oneRequest 5) "c1" fixture.baseTime)
  = fst (GetRemainingRequests (fixture.oneRequest 5) "c1" (fixture.baseTime + Second)).
Proof.
  pose proof (GetRemainingRequests_read_only (fixture.oneRequest 5) "c1"
                fixture.baseTime (fixture.baseTime + Second)) as H.
  simpl in H. apply H.
  intros t Ht. vm_compute in Ht. apply list_elem_of_singleton in Ht as ->.
  vm_compute. split; discriminate.
Defined.

(** C9 as stated fails once the clock moves on: with one request stored,
    a call made at that instant answers 4 and a call made 61 seconds later,
    with no [IsAllowed] call in between, answers 5. *)
Lemma remaining_changes_with_clock :
  fst (GetRemainingRequests (fixture.oneRequest 5) "c1" fixture.baseTime) = 4
  ∧ fst (GetRemainingRequests (fixture.oneRequest 5) "c1"
           (fixture.baseTime + 61 * Second)) = 5.
Proof. split; vm_compute; reflexivity. Qed.

End RateLimiterClaims.

(** ** [regexp]: the matcher decides the language of the pattern *)

Section RegexpFacts.

Import regexp.

Lemma Matches_nil_nullable r s : Matches r s → s = [] → nullable r = true.
Proof.
  induction 1 as [| | r1 r2 s1 s2 _ IH1 _ IH2 | r1 r2 s _ IH | r1 r2 s _ IH | |];
    intros Hs; simpl; try done.
  - apply app_eq_nil in Hs as [-> ->]. by rewrite IH1, IH2.
  - by rewrite IH.
  - rewrite IH by done. apply orb_true_r.
Qed.

Lemma nullable_Matches r : nullable r = true ↔ Matches r [].
Proof.
  split; [|intros H; by eapply Matches_nil_nullable].
  induction r as [| | p | r1 IH1 r2 IH2 | r1 IH1 r2 IH2 | r IH]; simpl; intros Hn;
    try discriminate.
  - constructor.
  - apply andb_true_iff in Hn as [H1 H2].
    change (@nil ascii) with (@nil ascii ++ []). constructor; auto.
  - apply orb_true_iff in Hn as [H1 | H2]; [apply MAltL | apply MAltR]; auto.
  - constructor.
Qed.

Lemma derive_sound c r s : Matches (derive c r) s → Matches r (c :: s).
Proof.
  revert s. induction r as [| | p | r1 IH1 r2 IH2 | r1 IH1 r2 IH2 | r IH];
    simpl; intros s H.
  - inversion H.
  - inversion H.
  - destruct (p c) eqn:Hp; inversion H; subst. by constructor.
  - destruct (nullable r1) eqn:Hn.
    + inversion H as [| | | ? ? ? HL | ? ? ? HR | |]; subst.
      * inversion HL; subst. rewrite app_comm_cons. constructor; auto.
      * change (c :: s) with ([] ++ c :: s). constructor; [|auto].
        by apply nullable_Matches.
    + inversion H; subst. rewrite app_comm_cons. constructor; auto.
  - inversion H; subst; [apply MAltL | apply MAltR]; auto.
  - inversion H; subst. rewrite app_comm_cons. constructor; auto.
Qed.

Lemma derive_complete c r s' :
  Matches r s' → ∀ s, s' = c :: s → Matches (derive c r) s.
Proof.
  induction 1 as [| p c' Hp | r1 r2 s1 s2 H1 IH1 H2 IH2 | r1 r2 s0 _ IH
                  | r1 r2 s0 _ IH | | r s1 s2 H1 IH1 H2 IH2];
    intros s Hs; simpl; try discriminate.
  - injection Hs as -> <-. rewrite Hp. constructor.
  - destruct s1 as [|c1 s1]; simpl in Hs.
    + subst s2. replace (nullable r1) with true
        by (symmetry; by apply nullable_Matches).
      apply MAltR. by apply IH2.
    + injection Hs as -> <-.
      destruct (nullable r1); [apply MAltL|]; constructor; auto.
  - apply MAltL. by apply IH.
  - apply MAltR. by apply IH.
  - destruct s1 as [|c1 s1]; simpl in Hs.
    + by apply IH2.
    + injection Hs as -> <-. constructor; auto.
Qed.

Lemma derive_Matches c r s : Matches (derive c r) s ↔ Matches r (c :: s).
Proof.
  split; [apply derive_sound|]. intros H. by eapply derive_complete.
Qed.

Lemma matchBytes_Matches r s : matchBytes r s = true ↔ Matches r s.
Proof.
  unfold matchBytes. revert r. induction s as [|c s IH]; intros r; simpl.
  - apply nullable_Matches.
  - rewrite IH. apply derive_Matches.
Qed.

Lemma Matches_Concat r1 r2 s :
  Matches (Concat r1 r2) s ↔ ∃ s1 s2, s = s1 ++ s2 ∧ Matches r1 s1 ∧ Matches r2 s2.
Proof.
  split.
  - inversion 1; subst. eauto.
  - intros (s1 & s2 & -> & H1 & H2). by constructor.
Qed.

Lemma Matches_CharClass p s :
  Matches (CharClass p) s ↔ ∃ c, s = [c] ∧ p c = true.
Proof.
  split.
  - inversion 1; subst. eauto.
  - intros (c & -> & Hp). by constructor.
Qed.

Lemma Matches_Literal c s : Matches (Literal c) s ↔ s = [c].
Proof.
  unfold Literal. rewrite Matches_CharClass. split.
  - intros (c' & -> & Heq). apply Ascii.eqb_eq in Heq. by subst.
  - intros ->. exists c. split; [done|]. apply Ascii.eqb_refl.
Qed.

Lemma Matches_Star_class_all p r s :
  Matches r s → r = Star (CharClass p) → Forall (fun c => p c = true) s.
Proof.
  induction 1 as [| | | | | | r0 s1 s2 H1 _ H2 IH2]; intros Hr; try discriminate.
  - constructor.
  - injection Hr as ->. apply Forall_app. split; [|by apply IH2].
    apply Matches_CharClass in H1 as (c & -> & Hp). by constructor.
Qed.

Lemma Matches_Star_class p s :
  Matches (Star (CharClass p)) s ↔ Forall (fun c => p c = true) s.
Proof.
  split; [intros H; by eapply Matches_Star_class_all|].
  induction 1 as [|c s Hp _ IH]; [constructor|].
  change (c :: s) with ([c] ++ s). constructor; [by constructor|done].
Qed.

Lemma Matches_Plus_class p s :
  Matches (Plus (CharClass p)) s ↔ (1 ≤ length s)%nat ∧ Forall (fun c => p c = true) s.
Proof.
  unfold Plus. rewrite Matches_Concat. split.
  - intros (s1 & s2 & -> & (c & -> & Hp)%Matches_CharClass & H2%Matches_Star_class).
    simpl. split; [lia|by constructor].
  - intros [Hlen Hall]. destruct s as [|c s]; [simpl in Hlen; lia|].
    apply Forall_cons in Hall as [Hp Hall]. exists [c], s.
    split; [done|]. split; [by constructor|by apply Matches_Star_class].
Qed.

Lemma Matches_upTo_class p n s :
  Matches (upTo (CharClass p) n) s ↔ (length s ≤ n)%nat ∧ Forall (fun c => p c = true) s.
Proof.
  revert s. induction n as [|n IH]; intros s; simpl.
  - split.
    + inversion 1; subst. split; [done|constructor].
    + intros [Hlen _]. destruct s; [constructor|simpl in Hlen; lia].
  - unfold Quest. split.
    + inversion 1 as [| | | ? ? ? HL | ? ? ? HR | |]; subst.
      * apply Matches_Concat in HL
          as (s1 & s2 & -> & (c & -> & Hp)%Matches_CharClass & [Hlen Hall]%IH).
        simpl. split; [lia|by constructor].
      * inversion HR; subst. split; [simpl; lia|constructor].
    + intros [Hlen Hall]. destruct s as [|c s]; [apply MAltR; constructor|].
      apply Forall_cons in Hall as [Hp Hall]. apply MAltL.
      change (c :: s) with ([c] ++ s). constructor; [by constructor|].
      apply IH. simpl in Hlen. split; [lia|done].
Qed.

Lemma Matches_Repeat_class p min extra s :
  Matches (Repeat (CharClass p) min extra) s
  ↔ (min ≤ length s ≤ min + extra)%nat ∧ Forall (fun c => p c = true) s.
Proof.
  revert s. induction min as [|min IH]; intros s; simpl.
  - rewrite Matches_upTo_class. split; intros [? ?]; (split; [lia|done]).
  - rewrite Matches_Concat. split.
    + intros (s1 & s2 & -> & (c & -> & Hp)%Matches_CharClass & [Hlen Hall]%IH).
      simpl. split; [lia|by constructor].
    + intros [Hlen Hall]. destruct s as [|c s]; [simpl in Hlen; lia|].
      apply Forall_cons in Hall as [Hp Hall]. exists [c], s.
      split; [done|]. split; [by constructor|].
      apply IH. simpl in Hlen. split; [lia|done].
Qed.

End RegexpFacts.

(** ** [validator]: the email check *)

Section EmailFacts.

Import regexp validator.

Lemma oneOf_spec set c : oneOf set c = true ↔ c ∈ list_ascii_of_string set.
Proof.
  unfold oneOf. rewrite existsb_exists. split.
  - intros (x & Hin & ->%Ascii.eqb_eq). by apply list_elem_of_In.
  - intros Hin. exists c. split; [by apply list_elem_of_In|apply Ascii.eqb_refl].
Qed.

(** The ranges of the pattern, letter by letter. *)
Lemma isLower_letters c : isLower c = oneOf "abcdefghijklmnopqrstuvwxyz" c.
Proof. destruct c as [[] [] [] [] [] [] [] []]; reflexivity. Qed.

Lemma isDigit_digits c : isDigit c = oneOf "0123456789" c.
Proof. destruct c as [[] [] [] [] [] [] [] []]; reflexivity. Qed.

Lemma isLower_spec c : isLower c = true ↔ grammar.lowercaseLetter c.
Proof. rewrite isLower_letters. apply oneOf_spec. Qed.

Lemma isDigit_spec c : isDigit c = true ↔ grammar.digit c.
Proof. rewrite isDigit_digits. apply oneOf_spec. Qed.

Lemma localClass_spec c : localClass c = true ↔ grammar.localChar c.
Proof.
  unfold localClass, grammar.localChar.
  rewrite !orb_true_iff, isLower_spec, isDigit_spec, oneOf_spec. tauto.
Qed.

Lemma domainClass_spec c : domainClass c = true ↔ grammar.domainChar c.
Proof.
  unfold domainClass, grammar.domainChar.
  rewrite !orb_true_iff, isLower_spec, isDigit_spec, oneOf_spec. tauto.
Qed.

(** No class of the pattern, and neither literal, holds an uppercase letter. *)
Lemma uppercase_in_no_class c :
  oneOf "ABCDEFGHIJKLMNOPQRSTUVWXYZ" c = true →
  localClass c = false ∧ domainClass c = false ∧ isLower c = false
  ∧ c ≠ "@"%char ∧ c ≠ "."%char.
Proof.
  destruct c as [[] [] [] [] [] [] [] []]; vm_compute; intros Hc;
    try discriminate Hc; repeat split; discriminate.
Qed.

(** The language of [emailRegex], part by part. *)
Lemma emailRegex_Matches s :
  Matches emailRegex s ↔
  ∃ localPart domain label,
    s = localPart ++ "@"%char :: domain ++ "."%char :: label
    ∧ (1 ≤ length localPart)%nat ∧ Forall (fun c => localClass c = true) localPart
    ∧ (1 ≤ length domain)%nat ∧ Forall (fun c => domainClass c = true) domain
    ∧ (2 ≤ length label ≤ 4)%nat ∧ Forall (fun c => isLower c = true) label.
Proof.
  unfold emailRegex. split.
  - intros (l & s1 & -> & [Hl1 Hl2]%Matches_Plus_class
              & (a & s2 & -> & ->%Matches_Literal
              & (d & s3 & -> & [Hd1 Hd2]%Matches_Plus_class
              & (dot & t & -> & ->%Matches_Literal
              & [Ht1 Ht2]%Matches_Repeat_class)%Matches_Concat)%Matches_Concat
              )%Matches_Concat)%Matches_Concat.
    exists l, d, t. simpl in *. repeat split; (done || lia).
  - intros (l & d & t & -> & Hl1 & Hl2 & Hd1 & Hd2 & Ht1 & Ht2).
    apply Matches_Concat. exists l, ("@"%char :: d ++ "."%char :: t).
    split; [done|]. split; [by apply Matches_Plus_class|].
    apply Matches_Concat. exists ["@"%char], (d ++ "."%char :: t).
    split; [done|]. split; [by apply Matches_Literal|].
    apply Matches_Concat. exists d, ("."%char :: t).
    split; [done|]. split; [by apply Matches_Plus_class|].
    apply Matches_Concat. exists ["."%char], t.
    split; [done|]. split; [by apply Matches_Literal|].
    apply Matches_Repeat_class. split; [simpl; lia|done].
Qed.

(** C7.  The email check accepts a string if and only if it consists of a
    local part of one or more characters from lowercase letters, digits and
    [. _ % + -], an [@], a domain of one or more characters from lowercase
    letters, digits, [.] and [-], a literal [.], and a top-level label of 2
    to 4 lowercase letters; every string that contains an uppercase letter
    is rejected. *)
Theorem isValidEmail_grammar email :
  (isValidEmail email = true ↔ grammar.email email)
  ∧ ((∃ c, c ∈ list_ascii_of_string email ∧ grammar.uppercaseLetter c) →
     isValidEmail email = false).
Proof.
  assert (isValidEmail email = true ↔ grammar.email email) as Hiff.
  { unfold isValidEmail, MatchString, grammar.email.
    rewrite matchBytes_Matches, emailRegex_Matches.
    split; intros (l & d & t & Heq & Hl1 & Hl2 & Hd1 & Hd2 & Ht1 & Ht2);
      exists l, d, t; (split; [exact Heq|]);
      repeat split; try done; try lia.
    - eapply Forall_impl; [exact Hl2|]. intros c. apply localClass_spec.
    - eapply Forall_impl; [exact Hd2|]. intros c. apply domainClass_spec.
    - eapply Forall_impl; [exact Ht2|]. intros c. apply isLower_spec.
    - eapply Forall_impl; [exact Hl2|]. intros c. apply localClass_spec.
    - eapply Forall_impl; [exact Hd2|]. intros c. apply domainClass_spec.
    - eapply Forall_impl; [exact Ht2|]. intros c. apply isLower_spec. }
  split; [exact Hiff|].
  intros (c & Hin & Hup). apply not_true_is_false. intros Hvalid.
  apply oneOf_spec, uppercase_in_no_class in Hup as (Hl & Hd & Hlow & Hat & Hdot).
  unfold isValidEmail, MatchString in Hvalid.
  apply matchBytes_Matches, emailRegex_Matches in Hvalid
    as (l & d & t & Heq & _ & Hl2 & _ & Hd2 & _ & Ht2).
  rewrite Heq in Hin. rewrite Forall_forall in Hl2, Hd2, Ht2.
  apply elem_of_app in Hin as [Hin|Hin]; [specialize (Hl2 c Hin); congruence|].
  apply elem_of_cons in Hin as [->|Hin]; [done|].
  apply elem_of_app in Hin as [Hin|Hin]; [specialize (Hd2 c Hin); congruence|].
  apply elem_of_cons in Hin as [->|Hin]; [done|].
  specialize (Ht2 c Hin). congruence.
Qed.

End EmailFacts.

Example isValidEmail_plain : validator.isValidEmail "test@example.com" = true.
Proof. reflexivity. Qed.

Example isValidEmail_uppercase : validator.isValidEmail "Test@example.com" = false.
Proof. reflexivity. Qed.

Example isValidEmail_no_domain : validator.isValidEmail "test@" = false.
Proof. reflexivity. Qed.

(** ** [validator]: logging and the order of the rules *)

Section ValidatorFacts.

Import validator.

Variable world : Oracle.

Lemma untouched_refl s : untouched s s.
Proof. by repeat split. Qed.

Lemma untouched_step s : untouched s (step s).
Proof. by repeat split. Qed.

(** A rejection is logged and counted as one, or not at all when the log
    cannot be written; the limiter and the sink are never involved. *)
Lemma writeErrorLog_outcome customerID reason s :
  let '(err, s') := writeErrorLog world customerID reason s in
  rateLimiter s' = rateLimiter s
  ∧ ((err = None ∧ rejected customerID reason s s')
     ∨ (err ≠ None ∧ untouched s s')).
Proof.
  unfold writeErrorLog, bind, openErrorLog, timeNow, writeString, incErrorCount, ret.
  simpl. destruct (OpenFile world (tick s)) as [e|]; simpl.
  { split; [done|]. right. split; [done|apply untouched_step]. }
  destruct (WriteString world (S (S (tick s)))) as [e|]; simpl.
  { split; [done|]. right. split; [done|by repeat split]. }
  split; [done|]. left. split; [done|]. repeat split; simpl; eauto.
Qed.

Lemma writeErrorLog_writable customerID reason s :
  logWritable world →
  let '(err, s') := writeErrorLog world customerID reason s in
  err = None ∧ rateLimiter s' = rateLimiter s ∧ rejected customerID reason s s'.
Proof.
  intros Hw. unfold writeErrorLog, bind, openErrorLog, timeNow, writeString,
    incErrorCount, ret. simpl.
  destruct (Hw (tick s)) as [-> _]. simpl.
  destruct (Hw (S (S (tick s)))) as [_ ->]. simpl.
  split; [done|]. split; [done|]. repeat split; simpl; eauto.
Qed.

(** A failing rule: the reason is returned, after one attempt to log it. *)
Lemma reject_with_outcome (sample : types.Sample) reason s :
  let '((_, err), s') :=
    (writeErrorLog world (types.CustomerID sample) reason ;;;
     ret (sample, Some reason)) s in
  err = Some reason
  ∧ rateLimiter s' = rateLimiter s
  ∧ (rejected (types.CustomerID sample) reason s s' ∨ untouched s s').
Proof.
  unfold bind, ret.
  pose proof (writeErrorLog_outcome (types.CustomerID sample) reason s) as H.
  destruct (writeErrorLog world (types.CustomerID sample) reason s) as [e s1].
  destruct H as [Hr [[_ H]|[_ H]]]; auto.
Qed.

End ValidatorFacts.

Section ValidatorClaims.

Import validator.

(** C6.  [ValidateSample] evaluates its rules in a fixed order: an empty
    customer identifier yields "customer_id is required"; otherwise an email
    that fails the grammar yields "invalid email format"; otherwise an empty
    name yields "name is required"; otherwise a zero creation timestamp
    yields "created_at is required"; otherwise the record is accepted.  The
    first failing rule decides the reason: at most one entry is logged, and
    it carries the returned reason. *)
Theorem ValidateSample_precedence world sample s :
  let '((_, err), s') := ValidateSample world sample s in
  let id := types.CustomerID sample in
  (id = "" → err = Some "customer_id is required")
  ∧ (id ≠ "" → isValidEmail (types.Email sample) = false →
     err = Some "invalid email format")
  ∧ (id ≠ "" → isValidEmail (types.Email sample) = true → types.Name sample = "" →
     err = Some "name is required")
  ∧ (id ≠ "" → isValidEmail (types.Email sample) = true → types.Name sample ≠ "" →
     types.CreatedAt sample = zeroTime → err = Some "created_at is required")
  ∧ (id ≠ "" → isValidEmail (types.Email sample) = true → types.Name sample ≠ "" →
     types.CreatedAt sample ≠ zeroTime → err = None)
  ∧ (∀ reason, err = Some reason → rejected id reason s s' ∨ untouched s s')
  ∧ (err = None → untouched s s').
Proof.
  unfold ValidateSample.
  destruct (types.CustomerID sample =? "")%string eqn:Hid.
  { apply String.eqb_eq in Hid.
    pose proof (reject_with_outcome world sample "customer_id is required" s) as H.
    destruct ((_ ;;; _) s) as [[copy err] s']. destruct H as (-> & _ & H).
    cbv zeta. repeat split; try done. by intros reason [= <-]. }
  apply String.eqb_neq in Hid.
  destruct (isValidEmail (types.Email sample)) eqn:Hemail; cbn [negb].
  2:{ pose proof (reject_with_outcome world sample "invalid email format" s) as H.
      destruct ((_ ;;; _) s) as [[copy err] s']. destruct H as (-> & _ & H).
      cbv zeta. repeat split; try done. by intros reason [= <-]. }
  destruct (types.Name sample =? "")%string eqn:Hname.
  { apply String.eqb_eq in Hname.
    pose proof (reject_with_outcome world sample "name is required" s) as H.
    destruct ((_ ;;; _) s) as [[copy err] s']. destruct H as (-> & _ & H).
    cbv zeta. repeat split; try done. by intros reason [= <-]. }
  apply String.eqb_neq in Hname.
  unfold IsZero. destruct (types.CreatedAt sample =? zeroTime) eqn:Hcreated.
  { apply Z.eqb_eq in Hcreated.
    pose proof (reject_with_outcome world sample "created_at is required" s) as H.
    destruct ((_ ;;; _) s) as [[copy err] s']. destruct H as (-> & _ & H).
    cbv zeta. repeat split; try done. by intros reason [= <-]. }
  apply Z.eqb_neq in Hcreated.
  destruct (types.UpdatedAt sample =? zeroTime);
    unfold bind, timeNow, ret; cbv zeta beta iota; repeat split; try done.
Qed.

End ValidatorClaims.

(** ** [service]: one record, then the batch *)

Section ServiceFacts.

Import validator service.

Variable world : Oracle.
Variable timeParse : string -> string + Time.

Hypothesis writable : logWritable world.

Lemma reject_with_writable (sample : types.Sample) reason s :
  let '((_, err), s') :=
    (writeErrorLog world (types.CustomerID sample) reason ;;;
     ret (sample, Some reason)) s in
  err = Some reason ∧ rejected (types.CustomerID sample) reason s s'.
Proof.
  unfold bind, ret.
  pose proof (writeErrorLog_writable world (types.CustomerID sample) reason s writable) as H.
  destruct (writeErrorLog world (types.CustomerID sample) reason s) as [e s1].
  by destruct H as (_ & _ & H).
Qed.

(** With a writable log, validation either accepts and changes nothing, or
    rejects with exactly one logged and counted reason. *)
Lemma ValidateSample_writable sample s :
  let '((_, err), s') := ValidateSample world sample s in
  (err = None ∧ untouched s s')
  ∨ (∃ reason, err = Some reason ∧ rejected (types.CustomerID sample) reason s s').
Proof.
  unfold ValidateSample.
  repeat match goal with
  | |- context [if ?c then _ else _] =>
      destruct c;
      [try (match goal with
            | |- context [writeErrorLog world _ ?reason] =>
                pose proof (reject_with_writable sample reason s) as H;
                destruct ((_ ;;; _) s) as [[copy err] s'];
                destruct H as [-> H]; right; eauto
            end)|]
  end; unfold bind, timeNow, ret; left; split; (done || by repeat split).
Qed.

Lemma rejected_later customerID reason s0 s s' :
  errorCount s = errorCount s0 → errorLog s = errorLog s0 →
  inserted s = inserted s0 →
  rejected customerID reason s s' → rejected customerID reason s0 s'.
Proof.
  intros Hc Hl Hi (Hc' & [now Hl'] & Hi'). unfold rejected.
  rewrite <- Hc, <- Hl, <- Hi. eauto.
Qed.

(** A record is either stored, with nothing logged or counted, or rejected
    with exactly one entry logged and counted, and nothing stored. *)
Lemma ProcessSample_outcome cs s :
  let '(err, s') := ProcessSample world timeParse cs s in
  (err = None ∧ errorCount s' = errorCount s ∧ errorLog s' = errorLog s
   ∧ ∃ sample, inserted s' = inserted s ++ [sample])
  ∨ (err ≠ None ∧ ∃ reason, rejected (CustomerID cs) reason s s').
Proof.
  unfold ProcessSample. destruct (timeParse (CreatedAt cs)) as [e|createdAt].
  { unfold bind, ret, WriteErrorLog.
    pose proof (writeErrorLog_writable world (CustomerID cs)
                  ("invalid date format: " +:+ CreatedAt cs) s writable) as H.
    destruct (writeErrorLog _ _ _ s) as [e' s']. destruct H as (_ & _ & H).
    right. split; [done|eauto]. }
  cbv zeta. unfold bind at 1.
  pose proof (ValidateSample_writable
                (types.mkSample (CustomerID cs) (Email cs) (Name cs) createdAt zeroTime) s)
    as Hv.
  destruct (ValidateSample world _ s) as [[copy err] s1]. cbn [snd types.CustomerID] in *.
  destruct Hv as [[-> (Hc1 & Hr1 & Hl1 & Hi1)]|(reason & -> & Hrej)].
  2:{ unfold ret. right. split; [done|eauto]. }
  unfold bind at 1, isAllowed. cbn [types.CustomerID types.CreatedAt].
  destruct (ratelimiter.IsAllowed (rateLimiter s1) (CustomerID cs) createdAt)
    as [allowed r1].
  destruct allowed; cbn [negb].
  - unfold bind at 1, InsertSample. cbn [tick].
    destruct (InsertOne world (tick s1) _) as [e|].
    + unfold bind, ret, WriteErrorLog.
      match goal with |- context [writeErrorLog world ?id ?reason ?st] =>
        pose proof (writeErrorLog_writable world id reason st writable) as H;
        destruct (writeErrorLog world id reason st) as [e' s']
      end.
      destruct H as (_ & _ & H). right. split; [done|]. eexists.
      eapply rejected_later; [| | |exact H]; done.
    + unfold ret. left. split; [done|]. cbn. rewrite Hc1, Hl1, Hi1. eauto.
  - unfold bind, ret, WriteErrorLog.
    match goal with |- context [writeErrorLog world ?id ?reason ?st] =>
      pose proof (writeErrorLog_writable world id reason st writable) as H;
      destruct (writeErrorLog world id reason st) as [e' s']
    end.
    destruct H as (_ & _ & H). right. split; [done|]. eexists.
    eapply rejected_later; [| | |exact H]; done.
Qed.

(** The loop counts the stored records; the validator counts the others. *)
Lemma processLoop_accounting samples successCount s :
  0 <= errorCount s →
  errorCount s + Z.of_nat (length samples) <= GoInt.maxInt →
  let '(n, s') := processLoop world timeParse samples successCount s in
  ∃ stored refused : nat,
    (stored + refused = length samples)%nat
    ∧ n = successCount + Z.of_nat stored
    ∧ errorCount s' = errorCount s + Z.of_nat refused
    ∧ length (errorLog s') = (length (errorLog s) + refused)%nat
    ∧ length (inserted s') = (length (inserted s) + stored)%nat.
Proof.
  revert successCount s.
  induction samples as [|cs samples IH]; intros successCount s Hpos Hmax.
  { simpl. exists 0%nat, 0%nat. repeat split; lia. }
  cbn [processLoop]. unfold bind at 1.
  pose proof (ProcessSample_outcome cs s) as Hone.
  destruct (ProcessSample world timeParse cs s) as [err s1].
  cbn [length] in Hmax.
  destruct Hone as [(-> & Hc & Hl & sample & Hi)|(Herr & reason & Hc & [now Hl] & Hi)].
  - specialize (IH (successCount + 1) s1 ltac:(lia) ltac:(lia)).
    destruct (processLoop world timeParse samples (successCount + 1) s1) as [n s'].
    destruct IH as (stored & refused & Hsum & -> & Hc' & Hl' & Hi').
    exists (S stored), refused. rewrite Hc', Hl', Hi', Hc, Hl, Hi, length_app.
    simpl. repeat split; lia.
  - rewrite wrap_inRange in Hc
      by (unfold GoInt.inRange, GoInt.minInt, GoInt.maxInt in *; lia).
    destruct err as [e|]; [|done].
    specialize (IH successCount s1 ltac:(lia) ltac:(lia)).
    destruct (processLoop world timeParse samples successCount s1) as [n s'].
    destruct IH as (stored & refused & Hsum & -> & Hc' & Hl' & Hi').
    exists stored, (S refused). rewrite Hc', Hl', Hi', Hc, Hl, Hi, length_app.
    simpl. repeat split; lia.
Qed.

End ServiceFacts.

Section ServiceClaims.

Import validator service.

(** C2 (amended).  For a batch processed while every write to the error log
    succeeds, against a validator whose rejection counter stands at [c0]
    when the batch starts (and stays within an [int]), the returned result
    satisfies success count + failure count = number of input records + [c0]:
    the failure count is the validator's cumulative counter, so the sum is
    the number of records exactly when the validator is fresh.  Every record
    is stored by the sink and counted as a success, or rejected with one
    logged entry and counted by the shared counter; none goes uncounted. *)
Theorem ProcessSamples_accounting world timeParse samples s :
  logWritable world →
  0 <= errorCount s →
  errorCount s + Z.of_nat (length samples) <= GoInt.maxInt →
  let '((result, err), s') := ProcessSamples world timeParse samples s in
  err = None
  ∧ SuccessCount result + ErrorCount result
    = Z.of_nat (length samples) + errorCount s
  ∧ Z.of_nat (length (inserted s'))
    = Z.of_nat (length (inserted s)) + SuccessCount result
  ∧ Z.of_nat (length (errorLog s'))
    = Z.of_nat (length (errorLog s)) + (ErrorCount result - errorCount s).
Proof.
  intros Hw Hpos Hmax. unfold ProcessSamples, bind, GetErrorCount, ret.
  pose proof (processLoop_accounting world timeParse Hw samples 0 s Hpos Hmax) as H.
  destruct (processLoop world timeParse samples 0 s) as [n s'].
  destruct H as (stored & refused & Hsum & -> & Hc & Hl & Hi). simpl.
  rewrite Hc, Hl, Hi. repeat split; lia.
Qed.

Lemma ProcessSamples_accounting_witness :
  let '((result, err), s') :=
    ProcessSamples fixture.calm fixture.parseRFC3339
      [fixture.john; fixture.notAnEmail] (NewSampleService 5) in
  err = None
  ∧ SuccessCount result + ErrorCount result = 2 + 0
  ∧ Z.of_nat (length (inserted s')) = 0 + SuccessCount result
  ∧ Z.of_nat (length (errorLog s')) = 0 + (ErrorCount result - 0).
Proof.
  apply (ProcessSamples_accounting fixture.calm fixture.parseRFC3339
           [fixture.john; fixture.notAnEmail] (NewSampleService 5)).
  - intros n. split; reflexivity.
  - simpl. lia.
  - vm_compute. discriminate.
Defined.

(** C2 as stated fails for a second batch against the same validator: after
    a batch of one rejected record, a batch of one accepted record returns
    one success and one failure. *)
Lemma second_batch_counts_earlier_rejections :
  let s1 := snd (ProcessSamples fixture.calm fixture.parseRFC3339
                   [fixture.notAnEmail] (NewSampleService 5)) in
  let result := fst (fst (ProcessSamples fixture.calm fixture.parseRFC3339
                            [fixture.john] s1)) in
  result = mkProcessResult 1 1
  ∧ SuccessCount result + ErrorCount result ≠ Z.of_nat (length [fixture.john]).
Proof. vm_compute. split; [reflexivity|discriminate]. Qed.

(** C3, on the code.  [ValidateSample] accepts a record whose update
    timestamp is zero and stamps the current time on its own copy of the
    record; the caller's record keeps the zero update timestamp, which is
    what [ProcessSample] then hands to the sink. *)
Lemma ValidateSample_default_stays_local :
  let sample :=
    types.mkSample "1" "john@example.com" "John Doe" fixture.baseTime zeroTime in
  let '((copy, err), _) := ValidateSample fixture.calm sample (NewSampleService 5) in
  err = None
  ∧ types.UpdatedAt copy = Now fixture.calm 0
  ∧ types.UpdatedAt copy ≠ zeroTime
  ∧ inserted (snd (ProcessSample fixture.calm fixture.parseRFC3339 fixture.john
                     (NewSampleService 5)))
    = [sample]
  ∧ types.UpdatedAt sample = zeroTime.
Proof. vm_compute. repeat split; (reflexivity || discriminate). Qed.

End ServiceClaims.

(** * Further properties of the code *)

(** ** [ratelimiter]: keys, denials and the window *)

Section RateLimiterMore.

Import ratelimiter.

Lemma Minute_pos : 0 < Minute.
Proof. reflexivity. Qed.

Lemma filter_length_mono (P Q : Time → Prop) `{!∀ t, Decision (P t)}
    `{!∀ t, Decision (Q t)} (l : list Time) :
  (∀ t, t ∈ l → P t → Q t) →
  (length (filter P l) ≤ length (filter Q l))%nat.
Proof.
  induction l as [|t l IH]; intros Himp; [done|].
  rewrite !filter_cons. specialize (IH ltac:(intros u Hu; apply Himp; by right)).
  destruct (decide (P t)) as [HP|HP].
  - rewrite decide_True by (apply Himp; [left|done]). simpl. lia.
  - destruct (decide (Q t)); simpl; lia.
Qed.

Lemma IsAllowed_other_key r k k' createdAt :
  k ≠ k' → requests (snd (IsAllowed r k createdAt)) !! k' = requests r !! k'.
Proof.
  intros Hne. unfold IsAllowed. destruct (requests r !! k) as [stored|]; simpl.
  - destruct (_ <? _); simpl; by rewrite !lookup_insert_ne.
  - by rewrite lookup_insert_ne.
Qed.

(** X1.  Keys are independent: a call for one key changes neither the history of
    another key nor any answer the limiter gives for it. *)
Theorem IsAllowed_keys_independent r k k' createdAt :
  k ≠ k' →
  let r' := snd (IsAllowed r k createdAt) in
  history r' k' = history r k'
  ∧ (∀ now, fst (GetRemainingRequests r' k' now) = fst (GetRemainingRequests r k' now))
  ∧ (∀ t, fst (IsAllowed r' k' t) = fst (IsAllowed r k' t)).
Proof.
  intros Hne r'. pose proof (IsAllowed_other_key r k k' createdAt Hne) as Hk.
  pose proof (IsAllowed_limit r k createdAt) as HN. fold r' in Hk, HN.
  split; [unfold history; by rewrite Hk|]. split.
  - intros now. unfold GetRemainingRequests. simpl. by rewrite Hk, HN.
  - intros t. unfold IsAllowed. rewrite Hk. destruct (requests r !! k'); [|done].
    cbv zeta. simpl requestsPerMinute. rewrite HN. by destruct (_ <? _).
Qed.

Lemma IsAllowed_keys_independent_witness :
  "c1" ≠ "c2"
  ∧ history (snd (IsAllowed (fixture.oneRequest 1) "c2" fixture.baseTime)) "c1"
    = history (fixture.oneRequest 1) "c1".
Proof.
  assert ("c2" ≠ "c1") as Hne by discriminate.
  split; [discriminate|].
  apply (IsAllowed_keys_independent (fixture.oneRequest 1) "c2" "c1"
           fixture.baseTime Hne).
Defined.


(** X3.  A call made more than 60 seconds after everything stored for its key is
    allowed under any limit [N >= 1], and the history restarts from it. *)
Theorem IsAllowed_after_window r k createdAt :
  1 <= requestsPerMinute r →
  (∀ u, u ∈ history r k → u + Minute < createdAt) →
  fst (IsAllowed r k createdAt) = true
  ∧ history (snd (IsAllowed r k createdAt)) k = [createdAt].
Proof.
  intros HN Hold. rewrite (IsAllowed_stale r k createdAt HN).
  - split; [done|]. cbn [snd]. unfold history. by rewrite lookup_setRequests.
  - intros u Hu. specialize (Hold u Hu). lia.
Qed.

Lemma IsAllowed_after_window_witness :
  fst (IsAllowed (fixture.oneRequest 1) "c1" (fixture.baseTime + 61 * Second)) = true
  ∧ history (snd (IsAllowed (fixture.oneRequest 1) "c1" (fixture.baseTime + 61 * Second)))
      "c1" = [fixture.baseTime + 61 * Second].
Proof.
  apply (IsAllowed_after_window (fixture.oneRequest 1) "c1"
           (fixture.baseTime + 61 * Second)).
  - vm_compute. discriminate.
  - intros u Hu. vm_compute in Hu. apply list_elem_of_singleton in Hu as ->.
    vm_compute. reflexivity.
Defined.

Lemma IsAllowed_keys r k createdAt :
  dom (requests (snd (IsAllowed r k createdAt))) = {[k]} ∪ dom (requests r).
Proof.
  unfold IsAllowed. destruct (requests r !! k) as [stored|]; simpl.
  - destruct (_ <? _); simpl; rewrite !dom_insert_L;
      by rewrite ?(assoc_L (∪)), ?(idemp_L (∪)).
  - by rewrite dom_insert_L.
Qed.

(** X4.  The limiter never forgets a key: after any calls the map holds the keys
    it held before and the keys of the calls, also those whose history has
    been pruned to nothing. *)
Theorem run_keys_only_grow r calls :
  dom (requests (run r calls)) = dom (requests r) ∪ list_to_set (calls.*1).
Proof.
  unfold run. revert r. induction calls as [|[k t] calls IH]; intros r; simpl.
  - by rewrite (right_id_L ∅ (∪)).
  - rewrite IH, IsAllowed_keys.
    by rewrite (comm_L (∪) {[k]}), <- (assoc_L (∪)).
Qed.

Lemma IsAllowedAll_nonpositive r k ats :
  requestsPerMinute r <= 0 →
  is_Some (requests r !! k) →
  fst (IsAllowedAll r k ats) = replicate (length ats) false.
Proof.
  revert r. induction ats as [|t ats IH]; intros r HN [stored Hk]; [done|].
  simpl. rewrite (IsAllowed_seen _ _ _ _ Hk). cbv zeta.
  destruct (_ <? _) eqn:Hlt; [apply Z.ltb_lt in Hlt; lia|].
  specialize (IH (setRequests r k (filter (fun u => t - Minute <= u) stored)) HN
                ltac:(rewrite lookup_setRequests; eauto)).
  destruct (IsAllowedAll _ k ats) as [bs r2]. simpl in *. by rewrite IH.
Qed.

(** X5.  A limit of zero or less does not block a key altogether: the first call
    for a key not seen before is allowed, and every later call for it is
    denied, however far apart the calls are. *)
Theorem IsAllowedAll_limit_not_positive r k createdAt ats :
  requestsPerMinute r <= 0 →
  requests r !! k = None →
  fst (IsAllowedAll r k (createdAt :: ats)) = true :: replicate (length ats) false.
Proof.
  intros HN Hk. simpl. rewrite (IsAllowed_unseen _ _ _ Hk).
  pose proof (IsAllowedAll_nonpositive (setRequests r k [createdAt]) k ats HN
                ltac:(rewrite lookup_setRequests; eauto)) as Hrest.
  destruct (IsAllowedAll _ k ats) as [bs r2]. simpl in *. by rewrite Hrest.
Qed.

Lemma IsAllowedAll_limit_not_positive_witness :
  fst (IsAllowedAll (NewRateLimiter (-3)) "c1"
         [fixture.baseTime; fixture.baseTime + 3600 * Second])
  = [true; false].
Proof.
  apply (IsAllowedAll_limit_not_positive (NewRateLimiter (-3)) "c1" fixture.baseTime
           [fixture.baseTime + 3600 * Second]).
  - simpl. lia.
  - reflexivity.
Defined.

(** X6.  With no call in between, the answer of [GetRemainingRequests] can only
    grow as the clock advances, and it stays between 0 and the limit; for a
    key never seen it is the limit. *)
Theorem GetRemainingRequests_grows_with_clock r k now1 now2 :
  bounded r →
  0 <= requestsPerMinute r <= GoInt.maxInt →
  now1 <= now2 →
  0 <= fst (GetRemainingRequests r k now1)
  ∧ fst (GetRemainingRequests r k now1) <= fst (GetRemainingRequests r k now2)
  ∧ fst (GetRemainingRequests r k now2) <= requestsPerMinute r
  ∧ (requests r !! k = None →
     fst (GetRemainingRequests r k now1) = requestsPerMinute r).
Proof.
  intros Hb HN Hnow. unfold GetRemainingRequests. cbn [fst].
  destruct (requests r !! k) as [stored|] eqn:Hk.
  - rewrite !validCountOf_filter. specialize (Hb k stored Hk).
    pose proof (length_filter (fun t => Add now1 (-1 * Minute) <= t) stored).
    pose proof (length_filter (fun t => Add now2 (-1 * Minute) <= t) stored).
    pose proof (filter_length_mono (fun t => Add now2 (-1 * Minute) <= t)
                  (fun t => Add now1 (-1 * Minute) <= t) stored
                  ltac:(unfold Add; intros; lia)).
    rewrite !wrap_inRange
      by (unfold GoInt.inRange, GoInt.minInt, GoInt.maxInt in *; lia).
    repeat split; try lia. done.
  - rewrite !wrap_inRange
      by (unfold GoInt.inRange, GoInt.minInt, GoInt.maxInt in *; lia).
    repeat split; lia.
Qed.

Lemma GetRemainingRequests_grows_with_clock_witness :
  fst (GetRemainingRequests (fixture.oneRequest 5) "c1" fixture.baseTime)
  <= fst (GetRemainingRequests (fixture.oneRequest 5) "c1"
            (fixture.baseTime + 61 * Second)).
Proof.
  apply (GetRemainingRequests_grows_with_clock (fixture.oneRequest 5) "c1"
           fixture.baseTime (fixture.baseTime + 61 * Second)).
  - apply IsAllowed_bounded; [simpl; lia|].
    intros k stored. simpl. by rewrite lookup_empty.
  - vm_compute. split; discriminate.
  - unfold Second. lia.
Defined.

(** The accepted timestamps of a key, while its calls arrive with timestamps
    that never go back: what is stored is what was accepted within 60
    seconds before the latest call, and no window holds more than the
    limit. *)
Lemma window_invariant r k ats stored earlier latest :
  1 <= requestsPerMinute r →
  requests r !! k = Some stored →
  stored = filter (fun u => latest - Minute <= u) earlier →
  (∀ W, Z.of_nat (length (filter (fun u => W - Minute <= u <= W) earlier))
        <= requestsPerMinute r) →
  (∀ t, t ∈ ats → latest <= t) →
  StronglySorted Z.le ats →
  ∀ W, Z.of_nat (length (filter (fun u => W - Minute <= u <= W)
                           (earlier ++ accepted ats (fst (IsAllowedAll r k ats)))))
       <= requestsPerMinute r.
Proof.
  revert r stored earlier latest.
  induction ats as [|t ats IH]; intros r stored earlier latest HN Hk Hst Hwin Hge Hsort W.
  { simpl. rewrite app_nil_r. apply Hwin. }
  apply StronglySorted_inv in Hsort as [Hsort Hhd]. rewrite Forall_forall in Hhd.
  assert (latest <= t) as Hlt by (apply Hge; left).
  assert (filter (fun u => t - Minute <= u) stored
          = filter (fun u => t - Minute <= u) earlier) as Hkept.
  { rewrite Hst. apply list_filter_filter_l. intros. lia. }
  cbn [IsAllowedAll]. rewrite (IsAllowed_seen _ _ _ _ Hk). cbv zeta. rewrite Hkept.
  destruct (_ <? _) eqn:Hcount.
  - apply Z.ltb_lt in Hcount.
    pose proof (IH (setRequests r k (filter (fun u => t - Minute <= u) earlier ++ [t]))
                  (filter (fun u => t - Minute <= u) earlier ++ [t])
                  (earlier ++ [t]) t HN (lookup_setRequests _ _ _)) as IH'.
    destruct (IsAllowedAll _ k ats) as [bs r2]. cbn [fst accepted] in *.
    rewrite cons_middle, (assoc_L (++) earlier [t]). apply IH'; [| |done|done].
    + rewrite filter_app, filter_cons, decide_True by (pose proof Minute_pos; lia).
      done.
    + intros W'. rewrite filter_app, length_app, filter_cons.
      destruct (decide (W' - Minute <= t <= W')) as [Hin|Hout]; simpl.
      * pose proof (filter_length_mono (fun u => W' - Minute <= u <= W')
                      (fun u => t - Minute <= u) earlier
                      ltac:(cbv beta; intros; lia)).
        lia.
      * specialize (Hwin W'). lia.
  - pose proof (IH (setRequests r k (filter (fun u => t - Minute <= u) earlier))
                  (filter (fun u => t - Minute <= u) earlier)
                  earlier t HN (lookup_setRequests _ _ _) eq_refl Hwin Hhd Hsort W) as IH'.
    destruct (IsAllowedAll _ k ats) as [bs r2]. cbn [fst accepted] in *. exact IH'.
Qed.

(** With the exact window start: no interval of 60 seconds holds more
    accepted timestamps than the limit. *)
Lemma IsAllowedAll_window_exact r k ats W :
  1 <= requestsPerMinute r →
  requests r !! k = None →
  StronglySorted Z.le ats →
  Z.of_nat (length (filter (fun u => W - Minute <= u <= W)
                      (accepted ats (fst (IsAllowedAll r k ats)))))
  <= requestsPerMinute r.
Proof.
  intros HN Hk Hsort. destruct ats as [|t ats]; [simpl; lia|].
  apply StronglySorted_inv in Hsort as [Hsort Hhd]. rewrite Forall_forall in Hhd.
  cbn [IsAllowedAll]. rewrite (IsAllowed_unseen _ _ _ Hk).
  pose proof (window_invariant (setRequests r k [t]) k ats [t] [t] t HN
                (lookup_setRequests _ _ _)) as Hinv.
  destruct (IsAllowedAll _ k ats) as [bs r2]. cbn [fst accepted] in *.
  apply Hinv; [| |done|done].
  - rewrite filter_cons, decide_True by (pose proof Minute_pos; lia). done.
  - intros W'. rewrite filter_cons. destruct (decide _); simpl; lia.
Qed.

(** The window needs timestamps that never go back: with the limit 2, two
    calls at [baseTime], one an hour later and one more at [baseTime] are all
    allowed, three of them at the same instant. *)
Example window_exceeded_when_time_goes_back :
  fst (IsAllowedAll (NewRateLimiter 2) "c1"
         [fixture.baseTime; fixture.baseTime; fixture.baseTime + 3600 * Second;
          fixture.baseTime])
  = [true; true; true; true].
Proof. vm_compute. reflexivity. Qed.

End RateLimiterMore.

(** ** [validator] and [service]: the stages of one record, in any world *)

Section StageFacts.

Import validator service.

Variable world : Oracle.
Variable timeParse : string -> string + Time.

Lemma rejected_logStep customerID reason s s' :
  rejected customerID reason s s' → logStep customerID s s'.
Proof. intros (Hc & [now Hl] & _). right. eauto. Qed.

Lemma untouched_logStep customerID s s' :
  untouched s s' → logStep customerID s s'.
Proof. intros (Hc & _ & Hl & _). by left. Qed.

Lemma reject_with_summary (sample : types.Sample) reason s :
  let '((_, err), s') :=
    (writeErrorLog world (types.CustomerID sample) reason ;;;
     ret (sample, Some reason)) s in
  err ≠ None
  ∧ rateLimiter s' = rateLimiter s
  ∧ inserted s' = inserted s
  ∧ logStep (types.CustomerID sample) s s'.
Proof.
  pose proof (reject_with_outcome world sample reason s) as H.
  destruct ((_ ;;; _) s) as [[copy err] s']. destruct H as (-> & Hr & H).
  split; [done|]. split; [done|].
  destruct H as [H|H].
  - split; [by destruct H as (_ & _ & ?)|by eapply rejected_logStep].
  - split; [by destruct H as (_ & _ & _ & ?)|by apply untouched_logStep].
Qed.

(** The rules of [ValidateSample] as one test. *)
Lemma ValidateSample_summary sample s :
  let '((_, err), s') := ValidateSample world sample s in
  rateLimiter s' = rateLimiter s
  ∧ inserted s' = inserted s
  ∧ logStep (types.CustomerID sample) s s'
  ∧ (err = None → errorLog s' = errorLog s ∧ errorCount s' = errorCount s)
  ∧ (err = None ↔
       negb (types.CustomerID sample =? "")%string
       && isValidEmail (types.Email sample)
       && negb (types.Name sample =? "")%string
       && negb (IsZero (types.CreatedAt sample)) = true).
Proof.
  unfold ValidateSample.
  destruct (types.CustomerID sample =? "")%string.
  { pose proof (reject_with_summary sample "customer_id is required" s) as H.
    destruct ((_ ;;; _) s) as [[copy err] s']. destruct H as (He & Hr & Hi & Hl).
    repeat split; try done. }
  destruct (isValidEmail (types.Email sample)); cbn [negb andb].
  2:{ pose proof (reject_with_summary sample "invalid email format" s) as H.
      destruct ((_ ;;; _) s) as [[copy err] s']. destruct H as (He & Hr & Hi & Hl).
      repeat split; try done. }
  destruct (types.Name sample =? "")%string; cbn [negb andb].
  { pose proof (reject_with_summary sample "name is required" s) as H.
    destruct ((_ ;;; _) s) as [[copy err] s']. destruct H as (He & Hr & Hi & Hl).
    repeat split; try done. }
  destruct (IsZero (types.CreatedAt sample)); cbn [negb andb].
  { pose proof (reject_with_summary sample "created_at is required" s) as H.
    destruct ((_ ;;; _) s) as [[copy err] s']. destruct H as (He & Hr & Hi & Hl).
    repeat split; try done. }
  destruct (IsZero (types.UpdatedAt sample));
    unfold bind, timeNow, ret; cbv beta iota zeta;
    repeat split; try done; by left.
Qed.

Lemma logStep_later customerID s0 s s' :
  errorLog s = errorLog s0 → errorCount s = errorCount s0 →
  logStep customerID s s' → logStep customerID s0 s'.
Proof. unfold logStep. intros <- <-. done. Qed.

(** A rejection logged by the service itself, in any world. *)
Lemma WriteErrorLog_summary customerID reason s :
  let '(_, s') := WriteErrorLog world customerID reason s in
  rateLimiter s' = rateLimiter s
  ∧ inserted s' = inserted s
  ∧ logStep customerID s s'.
Proof.
  unfold WriteErrorLog. pose proof (writeErrorLog_outcome world customerID reason s) as H.
  destruct (writeErrorLog world customerID reason s) as [e s'].
  destruct H as [Hr [[_ H]|[_ H]]]; split; try done.
  - split; [by destruct H as (_ & _ & ?)|by eapply rejected_logStep].
  - split; [by destruct H as (_ & _ & _ & ?)|by apply untouched_logStep].
Qed.

(** The stages of [ProcessSample], in any world: what reaches the limiter
    and the sink, and what the log and the counter record. *)
Lemma ProcessSample_stages cs s :
  let '(err, s') := ProcessSample world timeParse cs s in
  logStep (CustomerID cs) s s'
  ∧ (err = None → errorLog s' = errorLog s ∧ errorCount s' = errorCount s)
  ∧ match passes timeParse cs with
    | None =>
        err ≠ None ∧ rateLimiter s' = rateLimiter s ∧ inserted s' = inserted s
    | Some sample =>
        let call :=
          ratelimiter.IsAllowed (rateLimiter s) (rateCall sample).1 (rateCall sample).2 in
        rateLimiter s' = snd call
        ∧ ((err = None ∧ fst call = true ∧ inserted s' = inserted s ++ [sample])
           ∨ (err ≠ None ∧ inserted s' = inserted s))
        ∧ (sinkAccepts world → fst call = true → err = None)
    end.
Proof.
  unfold ProcessSample, passes.
  destruct (timeParse (CreatedAt cs)) as [e|createdAt].
  { unfold bind at 1, ret.
    pose proof (WriteErrorLog_summary (CustomerID cs)
                  ("invalid date format: " +:+ CreatedAt cs) s) as H.
    destruct (WriteErrorLog world _ _ s) as [e' s']. destruct H as (Hr & Hi & Hl).
    repeat split; done. }
  cbv zeta. unfold bind at 1.
  pose proof (ValidateSample_summary
                (types.mkSample (CustomerID cs) (Email cs) (Name cs) createdAt zeroTime) s)
    as Hv.
  destruct (ValidateSample world _ s) as [[copy err] s1].
  cbn [snd types.CustomerID types.Email types.Name types.CreatedAt] in *.
  destruct Hv as (Hr1 & Hi1 & Hl1 & Hnone & Hiff).
  destruct err as [e|].
  { destruct (_ && _) eqn:Hrules; [destruct Hiff as [_ Hiff]; by specialize (Hiff eq_refl)|].
    unfold ret. repeat split; done. }
  destruct Hiff as [Hiff _]. rewrite (Hiff eq_refl).
  destruct (Hnone eq_refl) as [Hlog1 Hcount1]. clear Hiff Hnone Hl1.
  unfold rateCall. cbn [fst snd types.CustomerID types.CreatedAt].
  unfold bind at 1, isAllowed. rewrite Hr1.
  destruct (ratelimiter.IsAllowed (rateLimiter s) (CustomerID cs) createdAt)
    as [allowed r1].
  destruct allowed; cbn [negb fst snd].
  - unfold bind at 1, InsertSample. cbn [tick].
    destruct (InsertOne world (tick s1) _) as [e|] eqn:Hins.
    + unfold bind at 1, ret.
      match goal with |- context [WriteErrorLog world ?id ?reason ?st] =>
        pose proof (WriteErrorLog_summary id reason st) as H;
        destruct (WriteErrorLog world id reason st) as [e' s']
      end.
      destruct H as (Hr & Hi & Hl). cbn in Hr, Hi.
      split; [eapply logStep_later; [| |exact Hl]; done|].
      split; [done|]. split; [done|]. split.
      * right. split; [done|]. by rewrite Hi.
      * intros Hsink. specialize (Hsink (tick s1)). by rewrite Hsink in Hins.
    + unfold ret. cbn. split; [left; by rewrite Hlog1, Hcount1|].
      split; [by rewrite Hlog1, Hcount1|]. split; [done|].
      split; [|done]. left. by rewrite Hi1.
  - unfold bind at 1, ret.
    match goal with |- context [WriteErrorLog world ?id ?reason ?st] =>
      pose proof (WriteErrorLog_summary id reason st) as H;
      destruct (WriteErrorLog world id reason st) as [e' s']
    end.
    destruct H as (Hr & Hi & Hl). cbn in Hr, Hi.
    split; [eapply logStep_later; [| |exact Hl]; done|].
    split; [done|]. split; [done|]. split; [|done].
    right. split; [done|]. by rewrite Hi.
Qed.

End StageFacts.

(** ** [service]: the batch, in any world *)

Section BatchFacts.

Import validator service.

Variable world : Oracle.
Variable timeParse : string -> string + Time.

Lemma passes_rules cs sample :
  passes timeParse cs = Some sample →
  types.CustomerID sample = CustomerID cs
  ∧ types.CustomerID sample ≠ ""
  ∧ isValidEmail (types.Email sample) = true
  ∧ types.Name sample ≠ ""
  ∧ types.CreatedAt sample ≠ zeroTime
  ∧ types.UpdatedAt sample = zeroTime.
Proof.
  unfold passes. destruct (timeParse (CreatedAt cs)) as [|createdAt]; [done|].
  destruct (_ && _) eqn:Hrules; [|done]. intros [= <-]. simpl.
  apply andb_true_iff in Hrules as [[[Hid Hemail]%andb_true_iff Hname]%andb_true_iff Ht].
  apply negb_true_iff in Hid, Hname, Ht.
  apply String.eqb_neq in Hid, Hname. apply Z.eqb_neq in Ht. done.
Qed.

(** The loop, for the limiter and the sink. *)
Lemma processLoop_trace samples successCount s :
  let '(n, s') := processLoop world timeParse samples successCount s in
  rateLimiter s'
  = ratelimiter.run (rateLimiter s) (rateCall <$> omap (passes timeParse) samples)
  ∧ ∃ new, inserted s' = inserted s ++ new
      ∧ new `sublist_of` omap (passes timeParse) samples
      ∧ n = successCount + Z.of_nat (length new).
Proof.
  revert successCount s. induction samples as [|cs samples IH]; intros successCount s.
  { simpl. split; [done|]. exists []. rewrite app_nil_r. repeat split; first [done | simpl; lia]. }
  cbn [processLoop]. unfold bind at 1.
  pose proof (ProcessSample_stages world timeParse cs s) as Hone.
  destruct (ProcessSample world timeParse cs s) as [err s1].
  destruct Hone as (_ & _ & Hone). cbn [omap list_omap].
  destruct (passes timeParse cs) as [sample|].
  - cbv zeta in Hone. destruct Hone as (Hr & Hsink & _).
    destruct Hsink as [(-> & _ & Hi)|(Herr & Hi)].
    + specialize (IH (successCount + 1) s1).
      destruct (processLoop world timeParse samples (successCount + 1) s1) as [n s'].
      destruct IH as (Hr' & new & Hi' & Hsub & ->).
      split; [by rewrite Hr', Hr|]. exists (sample :: new).
      rewrite Hi', Hi, <- (assoc_L (++)). repeat split; first [done | by constructor | simpl; lia].
    + destruct err as [e|]; [|done]. specialize (IH successCount s1).
      destruct (processLoop world timeParse samples successCount s1) as [n s'].
      destruct IH as (Hr' & new & Hi' & Hsub & ->).
      split; [by rewrite Hr', Hr|]. exists new. rewrite Hi', Hi.
      repeat split; first [done | by constructor].
  - destruct Hone as (Herr & Hr & Hi). destruct err as [e|]; [|done].
    specialize (IH successCount s1).
    destruct (processLoop world timeParse samples successCount s1) as [n s'].
    destruct IH as (Hr' & new & Hi' & Hsub & ->).
    split; [by rewrite Hr', Hr|]. exists new. by rewrite Hi', Hi.
Qed.

(** The loop, for the log and the counter. *)
Lemma processLoop_log samples successCount s :
  0 <= errorCount s →
  errorCount s + Z.of_nat (length samples) <= GoInt.maxInt →
  let '(n, s') := processLoop world timeParse samples successCount s in
  ∃ entries, errorLog s' = errorLog s ++ entries
    ∧ errorCount s' = errorCount s + Z.of_nat (length entries)
    ∧ n - successCount + Z.of_nat (length entries) <= Z.of_nat (length samples)
    ∧ Forall (fun entry => entryStatus entry = "error"
                ∧ entryCustomerId entry ∈ CustomerID <$> samples) entries.
Proof.
  revert successCount s.
  induction samples as [|cs samples IH]; intros successCount s Hpos Hmax.
  { simpl. exists []. rewrite app_nil_r.
    repeat split; first [done | simpl; lia | constructor]. }
  cbn [processLoop]. unfold bind at 1. cbn [length] in Hmax.
  pose proof (ProcessSample_stages world timeParse cs s) as Hone.
  destruct (ProcessSample world timeParse cs s) as [err s1].
  destruct Hone as (Hlog & Hnone & _).
  assert (∀ entries : list ErrorEntry,
            Forall (fun entry => entryStatus entry = "error"
                      ∧ entryCustomerId entry ∈ CustomerID <$> samples) entries →
            Forall (fun entry => entryStatus entry = "error"
                      ∧ entryCustomerId entry ∈ CustomerID <$> cs :: samples) entries)
    as Hweaken.
  { intros entries Hall. eapply Forall_impl; [exact Hall|].
    intros entry [? ?]. split; [done|]. rewrite fmap_cons. by right. }
  destruct Hlog as [[Hl Hc]|(reason & now & Hl & Hc)].
  - specialize (IH (match err with None => successCount + 1 | Some _ => successCount end)
                  s1 ltac:(lia) ltac:(lia)).
    destruct (processLoop world timeParse samples _ s1) as [n s'].
    destruct IH as (entries & Hl' & Hc' & Hn & Hall).
    exists entries. rewrite Hl', Hc', Hl, Hc.
    repeat split; [destruct err; simpl; lia|by apply Hweaken].
  - rewrite wrap_inRange in Hc
      by (unfold GoInt.inRange, GoInt.minInt, GoInt.maxInt in *; lia).
    destruct err as [e|].
    2:{ destruct (Hnone eq_refl) as [_ Hc0]. lia. }
    specialize (IH successCount s1 ltac:(lia) ltac:(lia)).
    destruct (processLoop world timeParse samples successCount s1) as [n s'].
    destruct IH as (entries & Hl' & Hc' & Hn & Hall).
    exists (mkErrorEntry "error" (CustomerID cs) reason now :: entries).
    rewrite Hl', Hc', Hl, Hc, <- (assoc_L (++)).
    repeat split; [simpl; lia|simpl; lia|].
    constructor; [|by apply Hweaken]. split; [done|]. rewrite fmap_cons. left.
Qed.

End BatchFacts.

Section ServiceMore.

Import validator service.

(** X8.  Whatever the log and the sink do, the limiter is asked about exactly the
    records whose timestamp parses and which pass validation, in the order
    of the batch; records rejected earlier use up nothing of their
    customer's limit, and a record the sink refuses has used its share. *)
Theorem ProcessSamples_limiter_calls world timeParse samples s :
  rateLimiter (snd (ProcessSamples world timeParse samples s))
  = ratelimiter.run (rateLimiter s) (rateCall <$> omap (passes timeParse) samples).
Proof.
  unfold ProcessSamples, bind, GetErrorCount, ret.
  pose proof (processLoop_trace world timeParse samples 0 s) as H.
  destruct (processLoop world timeParse samples 0 s) as [n s']. cbn [snd].
  by destruct H as [-> _].
Qed.

(** X9.  Nothing invalid reaches the sink: what a batch adds to the sink is, in
    batch order, some of the records that parse and pass validation, each
    with a non-empty customer id and name, a well-formed email, a non-zero
    creation time and the zero update time; the success count is their
    number. *)
Theorem ProcessSamples_sink_only_valid world timeParse samples s :
  let '((result, _), s') := ProcessSamples world timeParse samples s in
  ∃ new, inserted s' = inserted s ++ new
    ∧ new `sublist_of` omap (passes timeParse) samples
    ∧ SuccessCount result = Z.of_nat (length new)
    ∧ Forall (fun sample =>
                types.CustomerID sample ≠ ""
                ∧ isValidEmail (types.Email sample) = true
                ∧ types.Name sample ≠ ""
                ∧ types.CreatedAt sample ≠ zeroTime
                ∧ types.UpdatedAt sample = zeroTime) new.
Proof.
  unfold ProcessSamples, bind, GetErrorCount, ret.
  pose proof (processLoop_trace world timeParse samples 0 s) as H.
  destruct (processLoop world timeParse samples 0 s) as [n s'].
  destruct H as (_ & new & Hi & Hsub & ->). exists new.
  split; [done|]. split; [done|]. split; [simpl; lia|].
  apply Forall_forall. intros sample Hin.
  assert (sample ∈ omap (passes timeParse) samples) as Hin'
    by (eapply elem_of_sublist; done).
  apply list_elem_of_omap in Hin' as (cs & _ & Hpass).
  apply passes_rules in Hpass. tauto.
Qed.

(** X10.  The error log is append-only and the counter follows it: in any world a
    batch appends entries, each with status "error" and the customer id of
    a record of the batch, at most one per rejected record, and the failure
    count is the counter's earlier value plus the number of appended
    entries. *)
Theorem ProcessSamples_log_follows_counter world timeParse samples s :
  0 <= errorCount s →
  errorCount s + Z.of_nat (length samples) <= GoInt.maxInt →
  let '((result, _), s') := ProcessSamples world timeParse samples s in
  ∃ entries, errorLog s' = errorLog s ++ entries
    ∧ ErrorCount result = errorCount s + Z.of_nat (length entries)
    ∧ errorCount s' = ErrorCount result
    ∧ SuccessCount result + Z.of_nat (length entries) <= Z.of_nat (length samples)
    ∧ Forall (fun entry => entryStatus entry = "error"
                ∧ entryCustomerId entry ∈ CustomerID <$> samples) entries.
Proof.
  intros Hpos Hmax. unfold ProcessSamples, bind, GetErrorCount, ret.
  pose proof (processLoop_log world timeParse samples 0 s Hpos Hmax) as H.
  destruct (processLoop world timeParse samples 0 s) as [n s'].
  destruct H as (entries & Hl & Hc & Hn & Hall). exists entries. simpl.
  repeat split; first [done | lia].
Qed.

Lemma ProcessSamples_log_follows_counter_witness :
  let '((result, _), s') :=
    ProcessSamples fixture.readOnlyDisk fixture.parseRFC3339
      [fixture.john; fixture.notAnEmail] (NewSampleService 5) in
  ∃ entries, errorLog s' = [] ++ entries
    ∧ ErrorCount result = 0 + Z.of_nat (length entries)
    ∧ errorCount s' = ErrorCount result
    ∧ SuccessCount result + Z.of_nat (length entries) <= 2
    ∧ Forall (fun entry => entryStatus entry = "error"
                ∧ entryCustomerId entry
                  ∈ CustomerID <$> [fixture.john; fixture.notAnEmail]) entries.
Proof.
  apply (ProcessSamples_log_follows_counter fixture.readOnlyDisk fixture.parseRFC3339
           [fixture.john; fixture.notAnEmail] (NewSampleService 5)).
  - simpl. lia.
  - vm_compute. discriminate.
Defined.

(** X11.  A record whose timestamp does not parse is rejected with the parser's
    error before any rule is looked at, also when its customer id is empty:
    the limiter and the sink are not touched, and a writable log receives
    the entry "invalid date format: " followed by the raw value. *)
Theorem ProcessSample_unparsable_date world timeParse cs e s :
  timeParse (CreatedAt cs) = inl e →
  let '(err, s') := ProcessSample world timeParse cs s in
  err = Some e
  ∧ rateLimiter s' = rateLimiter s
  ∧ inserted s' = inserted s
  ∧ (logWritable world →
     rejected (CustomerID cs) ("invalid date format: " +:+ CreatedAt cs) s s').
Proof.
  intros Hparse. unfold ProcessSample. rewrite Hparse. unfold bind, ret, WriteErrorLog.
  pose proof (writeErrorLog_outcome world (CustomerID cs)
                ("invalid date format: " +:+ CreatedAt cs) s) as H.
  pose proof (writeErrorLog_writable world (CustomerID cs)
                ("invalid date format: " +:+ CreatedAt cs) s) as Hw.
  destruct (writeErrorLog world _ _ s) as [e' s'].
  destruct H as [Hr H]. split; [done|]. split; [done|]. split.
  - destruct H as [[_ (_ & _ & ?)]|[_ (_ & _ & _ & ?)]]; done.
  - intros Hwritable. by destruct (Hw Hwritable) as (_ & _ & ?).
Qed.

Lemma ProcessSample_unparsable_date_witness :
  let '(err, s') :=
    ProcessSample fixture.calm fixture.parseRFC3339 fixture.notADate
      (NewSampleService 5) in
  err = Some "parsing time: cannot parse as RFC3339"
  ∧ rateLimiter s' = rateLimiter (NewSampleService 5)
  ∧ inserted s' = inserted (NewSampleService 5)
  ∧ (logWritable fixture.calm →
     rejected "" ("invalid date format: " +:+ "not-a-date") (NewSampleService 5) s').
Proof.
  apply (ProcessSample_unparsable_date fixture.calm fixture.parseRFC3339
           fixture.notADate "parsing time: cannot parse as RFC3339" (NewSampleService 5)).
  reflexivity.
Defined.

(** A call at the instant [t] for a key whose history is [m] copies of [t]. *)
Lemma IsAllowed_same_instant r k t m :
  1 <= ratelimiter.requestsPerMinute r →
  ratelimiter.history r k = replicate m t →
  let '(allowed, r') := ratelimiter.IsAllowed r k t in
  allowed = bool_decide (Z.of_nat m < ratelimiter.requestsPerMinute r)
  ∧ ratelimiter.requestsPerMinute r' = ratelimiter.requestsPerMinute r
  ∧ ratelimiter.history r' k = replicate (if allowed then S m else m) t.
Proof.
  intros HN Hh. unfold ratelimiter.history in *.
  destruct (ratelimiter.requests r !! k) as [stored|] eqn:Hk; simpl in Hh.
  - rewrite (IsAllowed_seen _ _ _ _ Hk). cbv zeta. subst stored.
    rewrite filter_all_kept by (intros u [-> _]%elem_of_replicate; pose proof Minute_pos; lia).
    rewrite length_replicate.
    destruct (Z.of_nat m <? ratelimiter.requestsPerMinute r) eqn:Hlt.
    + apply Z.ltb_lt in Hlt. rewrite bool_decide_eq_true_2 by done.
      rewrite lookup_setRequests. simpl. by rewrite <- replicate_S_end.
    + apply Z.ltb_ge in Hlt. rewrite bool_decide_eq_false_2 by lia.
      by rewrite lookup_setRequests.
  - rewrite (IsAllowed_unseen _ _ _ Hk). destruct m; [|done].
    rewrite bool_decide_eq_true_2 by (simpl; lia).
    by rewrite lookup_setRequests.
Qed.

Lemma processLoop_same_record world timeParse cs sample n m successCount s :
  logWritable world →
  sinkAccepts world →
  passes timeParse cs = Some sample →
  1 <= ratelimiter.requestsPerMinute (rateLimiter s) →
  ratelimiter.history (rateLimiter s) (types.CustomerID sample)
  = replicate m (types.CreatedAt sample) →
  0 <= errorCount s →
  errorCount s + Z.of_nat n <= GoInt.maxInt →
  let left := Z.max 0 (ratelimiter.requestsPerMinute (rateLimiter s) - Z.of_nat m) in
  let '(count, s') := processLoop world timeParse (replicate n cs) successCount s in
  count = successCount + Z.min (Z.of_nat n) left
  ∧ errorCount s' = errorCount s + Z.of_nat n - Z.min (Z.of_nat n) left.
Proof.
  intros Hw Hsink Hpass. revert m successCount s.
  induction n as [|n IH]; intros m successCount s HN Hh Hpos Hmax; simpl.
  { split; lia. }
  unfold bind at 1.
  pose proof (ProcessSample_stages world timeParse cs s) as Hst.
  pose proof (ProcessSample_outcome world timeParse Hw cs s) as Hout.
  destruct (ProcessSample world timeParse cs s) as [err s1].
  rewrite Hpass in Hst. cbv zeta in Hst. unfold rateCall in Hst. cbn [fst snd] in Hst.
  destruct Hst as (_ & Hnone & Hr & Hcases & Hacc).
  pose proof (IsAllowed_same_instant (rateLimiter s) (types.CustomerID sample)
                (types.CreatedAt sample) m HN Hh) as Hcall.
  destruct (ratelimiter.IsAllowed (rateLimiter s) (types.CustomerID sample)
              (types.CreatedAt sample)) as [allowed r1].
  cbn [fst snd] in *. destruct Hcall as (-> & HN1 & Hh1). subst r1.
  case_bool_decide as Hlt.
  - rewrite (Hacc Hsink eq_refl) in *. destruct (Hnone eq_refl) as [_ Hc].
    specialize (IH (S m) (successCount + 1) s1 ltac:(lia) Hh1 ltac:(lia) ltac:(lia)).
    destruct (processLoop world timeParse (replicate n cs) (successCount + 1) s1)
      as [count s'].
    rewrite HN1 in IH. cbv zeta in IH. destruct IH as [-> ->]. rewrite Hc. split; lia.
  - destruct Hcases as [(_ & [=] & _)|[Herr _]].
    destruct err as [e|]; [|done].
    destruct Hout as [[[=] _]|(_ & reason & Hc & _)].
    rewrite wrap_inRange in Hc
      by (unfold GoInt.inRange, GoInt.minInt, GoInt.maxInt in *; lia).
    specialize (IH m successCount s1 ltac:(lia) Hh1 ltac:(lia) ltac:(lia)).
    destruct (processLoop world timeParse (replicate n cs) successCount s1)
      as [count s'].
    rewrite HN1 in IH. cbv zeta in IH. destruct IH as [-> ->]. rewrite Hc. split; lia.
Qed.

(** X12.  A batch of [n] copies of one valid record, processed by a fresh service
    with the limit [N >= 1] while the log is writable and the sink accepts:
    the first [N] copies are stored and the others are rejected, so the
    result counts [min n N] successes and [n - min n N] failures. *)
Theorem ProcessSamples_same_record world timeParse cs sample n N :
  logWritable world →
  sinkAccepts world →
  passes timeParse cs = Some sample →
  1 <= N →
  Z.of_nat n <= GoInt.maxInt →
  fst (fst (ProcessSamples world timeParse (replicate n cs) (NewSampleService N)))
  = mkProcessResult (Z.min (Z.of_nat n) N) (Z.of_nat n - Z.min (Z.of_nat n) N).
Proof.
  intros Hw Hsink Hpass HN Hn. unfold ProcessSamples, bind, GetErrorCount, ret.
  pose proof (processLoop_same_record world timeParse cs sample n 0 0
                (NewSampleService N) Hw Hsink Hpass HN eq_refl
                ltac:(simpl; lia) ltac:(simpl; lia)) as H.
  destruct (processLoop world timeParse (replicate n cs) 0 (NewSampleService N))
    as [count s'].
  cbv zeta in H. simpl in H. destruct H as [-> ->]. simpl. f_equal; lia.
Qed.

Lemma ProcessSamples_same_record_witness :
  fst (fst (ProcessSamples fixture.calm fixture.parseRFC3339
              (replicate 10 fixture.john) (NewSampleService 5)))
  = mkProcessResult (Z.min 10 5) (10 - Z.min 10 5).
Proof.
  apply (ProcessSamples_same_record fixture.calm fixture.parseRFC3339 fixture.john
           (types.mkSample "1" "john@example.com" "John Doe" fixture.baseTime zeroTime)
           10 5).
  - intros n. split; reflexivity.
  - intros n sample. reflexivity.
  - vm_compute. reflexivity.
  - lia.
  - vm_compute. discriminate.
Defined.

(** X13.  What [main] reports: for a fresh service, a readable file that decodes
    and a writable log, [ProcessSamplesFile] returns no error and its two
    counts add up to the number of records in the file. *)
Theorem ProcessSamplesFile_fresh_total world timeParse jsonDecode filepath
    contents samples limit :
  logWritable world →
  Open world 0 filepath = inr contents →
  jsonDecode contents = inr samples →
  Z.of_nat (length samples) <= GoInt.maxInt →
  let '((result, err), _) :=
    ProcessSamplesFile world timeParse jsonDecode filepath (NewSampleService limit) in
  err = None
  ∧ SuccessCount result + ErrorCount result = Z.of_nat (length samples).
Proof.
  intros Hw Hopen Hdec Hn.
  unfold ProcessSamplesFile, bind at 1, osOpen. cbn [tick NewSampleService].
  rewrite Hopen, Hdec. unfold ProcessSamples, bind, GetErrorCount, ret.
  pose proof (processLoop_accounting world timeParse Hw samples 0
                (step (NewSampleService limit)) ltac:(simpl; lia) ltac:(simpl; lia)) as H.
  destruct (processLoop world timeParse samples 0 (step (NewSampleService limit)))
    as [n s'].
  destruct H as (stored & refused & Hsum & -> & Hc & _). simpl in *.
  split; [done|lia].
Qed.

Lemma ProcessSamplesFile_fresh_total_witness :
  let '((result, err), _) :=
    ProcessSamplesFile fixture.inbox fixture.parseRFC3339 fixture.decodeInbox
      "samples.json" (NewSampleService 5) in
  err = None ∧ SuccessCount result + ErrorCount result = 2.
Proof.
  apply (ProcessSamplesFile_fresh_total fixture.inbox fixture.parseRFC3339
           fixture.decodeInbox "samples.json" "samples: john, notAnEmail"
           [fixture.john; fixture.notAnEmail] 5).
  - intros n. split; reflexivity.
  - reflexivity.
  - reflexivity.
  - vm_compute. discriminate.
Defined.

End ServiceMore.

(** ** [validator]: what an accepted email looks like *)

Section EmailMore.

Import regexp validator.

Lemma classes_exclude_at c :
  localClass c || domainClass c || isLower c = true → c ≠ "@"%char.
Proof.
  destruct c as [[] [] [] [] [] [] [] []]; vm_compute; intros Hc;
    try discriminate Hc; discriminate.
Qed.

Lemma classes_within_local c :
  domainClass c || isLower c || Ascii.eqb "." c = true → localClass c = true.
Proof.
  destruct c as [[] [] [] [] [] [] [] []]; vm_compute; intros Hc;
    try discriminate Hc; reflexivity.
Qed.

Lemma filter_at_none (l : list ascii) :
  Forall (fun c => c ≠ "@"%char) l → filter (fun c => c = "@"%char) l = [].
Proof.
  induction 1 as [|c l Hc _ IH]; [done|].
  by rewrite filter_cons, decide_False.
Qed.

(** X14.  An accepted email has at least six bytes and exactly one [@], and each
    of its bytes is a lowercase letter, a digit or one of [. _ % + - @]. *)
Theorem isValidEmail_shape email :
  isValidEmail email = true →
  let bytes := list_ascii_of_string email in
  (6 ≤ length bytes)%nat
  ∧ length (filter (fun c => c = "@"%char) bytes) = 1%nat
  ∧ Forall (fun c => grammar.localChar c ∨ c = "@"%char) bytes.
Proof.
  intros Hvalid bytes. unfold isValidEmail, MatchString in Hvalid. fold bytes in Hvalid.
  apply matchBytes_Matches, emailRegex_Matches in Hvalid
    as (l & d & t & -> & Hl1 & Hl2 & Hd1 & Hd2 & [Ht1 _] & Ht2).
  split; [rewrite !length_app; simpl; rewrite length_app; simpl; lia|].
  split.
  - rewrite filter_app, filter_cons, decide_True by done.
    rewrite filter_app, filter_cons, decide_False by done.
    rewrite !filter_at_none; [done| | |].
    + eapply Forall_impl; [exact Ht2|]. intros c Hc. apply classes_exclude_at.
      rewrite Hc. by rewrite !orb_true_r.
    + eapply Forall_impl; [exact Hd2|]. intros c Hc. apply classes_exclude_at.
      rewrite Hc. by rewrite orb_true_r.
    + eapply Forall_impl; [exact Hl2|]. intros c Hc. apply classes_exclude_at.
      by rewrite Hc.
  - apply Forall_app. split.
    { eapply Forall_impl; [exact Hl2|]. intros c Hc. left. by apply localClass_spec. }
    constructor; [by right|]. apply Forall_app. split.
    { eapply Forall_impl; [exact Hd2|]. intros c Hc. left.
      apply localClass_spec, classes_within_local. by rewrite Hc. }
    constructor.
    { left. apply localClass_spec. reflexivity. }
    eapply Forall_impl; [exact Ht2|]. intros c Hc. left.
    apply localClass_spec, classes_within_local. rewrite Hc. by rewrite orb_true_r.
Qed.

Lemma isValidEmail_shape_witness :
  isValidEmail "a@b.co" = true
  ∧ (6 ≤ length (list_ascii_of_string "a@b.co"))%nat.
Proof.
  split; [reflexivity|].
  apply (isValidEmail_shape "a@b.co"). reflexivity.
Defined.

End EmailMore.

(** ** [MockDatabase]: what the service tests read back *)

Section MockDatabaseFacts.

Import service_test.

Lemma afterInserts_snoc m inserts sample :
  afterInserts m (inserts ++ [sample]) = snd (InsertSample (afterInserts m inserts) sample).
Proof. unfold afterInserts. by rewrite fold_left_app. Qed.

Lemma GetSample_lookup m customerID :
  fst (GetSample m customerID) = (default zeroSample (samples m !! customerID), None).
Proof. unfold GetSample. by destruct (samples m !! customerID). Qed.

(** X15.  Reading back after a run of inserts: [GetSample] returns, with a nil
    error, the last inserted record that carries the customer id, so a later
    record of a customer replaces an earlier one; with no such record it
    answers as the database did before the inserts. *)
Theorem afterInserts_GetSample m inserts customerID :
  fst (GetSample (afterInserts m inserts) customerID)
  = (default (fst (fst (GetSample m customerID)))
       (last (filter (fun sample => types.CustomerID sample = customerID) inserts)),
     None).
Proof.
  induction inserts as [|sample inserts IH] using rev_ind.
  { by rewrite !GetSample_lookup. }
  rewrite GetSample_lookup in *.
  rewrite afterInserts_snoc, filter_app, filter_cons, filter_nil. simpl.
  destruct (decide (types.CustomerID sample = customerID)) as [<-|Hne].
  - by rewrite lookup_insert_eq, last_snoc.
  - rewrite lookup_insert_ne, app_nil_r by done. exact IH.
Qed.

(** X16.  A missing record is not an error: after [DeleteSample], [GetSample] for
    that customer returns the zero [Sample] with a nil error, and the
    records of the other customers are read as before. *)
Theorem DeleteSample_GetSample m customerID other :
  fst (GetSample (snd (DeleteSample m customerID)) customerID) = (zeroSample, None)
  ∧ (other ≠ customerID →
     fst (GetSample (snd (DeleteSample m customerID)) other) = fst (GetSample m other)).
Proof.
  rewrite !GetSample_lookup. unfold DeleteSample. simpl. split.
  - by rewrite lookup_delete_eq.
  - intros Hne. by rewrite lookup_delete_ne.
Qed.

End MockDatabaseFacts.

(** * The ends of [time.Time] *)

Section TimeRange.

Import ratelimiter.

(** Away from the ends the sum does not saturate. *)
Lemma AddSaturating_exact t d :
  representable (t + d) → AddSaturating t d = Add t d.
Proof.
  unfold representable, minTime, maxTime, AddSaturating, Add, seconds, nanoseconds.
  intros Hsum.
  pose proof (Z.div_mod t Second ltac:(done)) as Ht.
  pose proof (Z.mod_pos_bound t Second ltac:(done)) as Hn.
  pose proof (Z.quot_rem' d Second) as Hd.
  pose proof (Z.rem_bound_abs d Second ltac:(done)) as Hr.
  set (s := t / Second) in *. set (n := t mod Second) in *.
  set (q := Z.quot d Second) in *. set (r := Z.rem d Second) in *.
  unfold Second, GoInt.minInt, GoInt.maxInt in *.
  assert (∀ dsec nsec,
            0 <= nsec < 1000000000 →
            1000000000 * (s + dsec) + nsec = t + d →
            (let sum := GoInt.wrap (s + dsec) in
             let sec :=
               if Bool.eqb (s <? sum) (0 <? dsec) then sum
               else if 0 <? dsec then 2 ^ 63 - 1 else - (2 ^ 63 - 1) in
             sec * 1000000000 + nsec) = t + d) as Hcase.
  { intros dsec nsec Hnsec Heq. cbv zeta.
    rewrite wrap_inRange
      by (unfold GoInt.inRange, GoInt.minInt, GoInt.maxInt; lia).
    replace (s <? s + dsec) with (0 <? dsec)
      by (destruct (0 <? dsec) eqn:H0; symmetry;
          [apply Z.ltb_lt; apply Z.ltb_lt in H0 | apply Z.ltb_ge; apply Z.ltb_ge in H0];
          lia).
    rewrite eqb_reflx. lia. }
  destruct (1000000000 <=? n + r) eqn:Hhi.
  { apply Z.leb_le in Hhi. apply Hcase; lia. }
  apply Z.leb_gt in Hhi. destruct (n + r <? 0) eqn:Hlo.
  { apply Z.ltb_lt in Hlo. apply Hcase; lia. }
  apply Z.ltb_ge in Hlo. apply Hcase; lia.
Qed.

Lemma windowInRange_exact t :
  windowInRange t → AddSaturating t (-1 * Minute) = Add t (-1 * Minute).
Proof.
  intros Ht. apply AddSaturating_exact.
  unfold windowInRange, representable, minTime, maxTime, Minute, Second,
    GoInt.minInt, GoInt.maxInt in *. lia.
Qed.

(** In range the two forms of [IsAllowed] are one. *)
Lemma IsAllowedSaturating_in_range r k createdAt :
  windowInRange createdAt →
  IsAllowedSaturating r k createdAt = IsAllowed r k createdAt.
Proof.
  intros Ht. unfold IsAllowedSaturating, IsAllowed.
  by rewrite (windowInRange_exact _ Ht).
Qed.

Lemma IsAllowedAllSaturating_in_range r k ats :
  Forall windowInRange ats →
  IsAllowedAllSaturating r k ats = IsAllowedAll r k ats.
Proof.
  intros Hats. revert r. induction Hats as [|t ats Ht _ IH]; intros r; [done|].
  simpl. rewrite (IsAllowedSaturating_in_range _ _ _ Ht).
  destruct (IsAllowed r k t) as [b r1]. by rewrite IH.
Qed.

(** At the lower end the window start saturates above the exact
    difference: with the limit 1, a call at the earliest time and one 30
    seconds later are both allowed. *)
Example IsAllowedAllSaturating_at_minTime :
  fst (IsAllowedAllSaturating (NewRateLimiter 1) "c1" [minTime; minTime + 30 * Second])
  = [true; true]
  ∧ fst (IsAllowedAll (NewRateLimiter 1) "c1" [minTime; minTime + 30 * Second])
    = [true; false].
Proof. split; vm_compute; reflexivity. Qed.

(** The second call, at the earliest second plus one, is the first stored
    timestamp again when the window start saturates: with the limit 1 a
    denial at five seconds is followed by an allowed call a nanosecond
    earlier. *)
Example IsAllowedAllSaturating_denied_then_allowed :
  fst (IsAllowedAllSaturating (NewRateLimiter 1) "c1"
         [minTime + Second; minTime + 5 * Second; minTime + 5 * Second - 1])
  = [true; false; true].
Proof. vm_compute. reflexivity. Qed.

Lemma windowInRange_baseTime : windowInRange fixture.baseTime.
Proof. vm_compute. split; discriminate. Qed.

(** C5 (amended).  In [IsAllowed], for a supplied timestamp [createdAt] that
    is at least 60 seconds after the earliest time a [time.Time] can hold
    and a key that has a history, the pruning step keeps exactly the stored
    timestamps [t] with [t >= createdAt - 60s], in their order: the boundary
    is inclusive, so a timestamp exactly 60 seconds older than [createdAt]
    stays and is counted.  The call is allowed exactly when the kept
    timestamps are fewer than the limit; the history left behind is the kept
    list followed by [createdAt] when allowed, and the kept list with
    nothing appended when denied. *)
Theorem IsAllowedSaturating_prunes_inclusive r k createdAt stored :
  windowInRange createdAt →
  requests r !! k = Some stored →
  let kept := filter (fun t => createdAt - Minute <= t) stored in
  let '(allowed, r') := IsAllowedSaturating r k createdAt in
  (∀ t, t ∈ kept ↔ t ∈ stored ∧ createdAt - Minute <= t)
  ∧ (createdAt - Minute ∈ stored → createdAt - Minute ∈ kept)
  ∧ allowed = bool_decide (Z.of_nat (length kept) < requestsPerMinute r)
  ∧ history r' k = (if allowed then kept ++ [createdAt] else kept).
Proof.
  intros Ht Hk. rewrite (IsAllowedSaturating_in_range _ _ _ Ht).
  exact (IsAllowed_prunes_exact r k createdAt stored Hk).
Qed.

Lemma IsAllowedSaturating_prunes_inclusive_witness :
  let r := setRequests (NewRateLimiter 1) "c1"
             [fixture.baseTime - 2 * Minute; fixture.baseTime - Minute] in
  windowInRange fixture.baseTime
  ∧ requests r !! "c1" = Some [fixture.baseTime - 2 * Minute; fixture.baseTime - Minute]
  ∧ fst (IsAllowedSaturating r "c1" fixture.baseTime) = false
  ∧ history (snd (IsAllowedSaturating r "c1" fixture.baseTime)) "c1"
    = [fixture.baseTime - Minute].
Proof.
  intros r.
  assert (requests r !! "c1"
          = Some [fixture.baseTime - 2 * Minute; fixture.baseTime - Minute]) as Hk
    by (vm_compute; reflexivity).
  split; [exact windowInRange_baseTime|]. split; [exact Hk|].
  pose proof (IsAllowedSaturating_prunes_inclusive r "c1" fixture.baseTime _
                windowInRange_baseTime Hk) as H.
  cbv zeta in H. destruct (IsAllowedSaturating r "c1" fixture.baseTime) as [allowed r'].
  destruct H as (_ & _ & -> & Hh). simpl. split; [vm_compute; reflexivity|].
  rewrite Hh. vm_compute. reflexivity.
Defined.

(** C5 as stated fails within 60 seconds of the earliest time: the window
    start saturates, so a timestamp stored at the earliest time, which is
    not before [createdAt - 60s], is pruned by a call 30 seconds later, and
    with the limit 1 that call is allowed. *)
Lemma minTime_request_pruned :
  let r := setRequests (NewRateLimiter 1) "c1" [minTime] in
  let createdAt := minTime + 30 * Second in
  createdAt - Minute <= minTime
  ∧ filter (fun t => createdAt - Minute <= t) [minTime] = [minTime]
  ∧ IsAllowedSaturating r "c1" createdAt = (true, setRequests r "c1" [createdAt]).
Proof.
  cbv zeta. split; [vm_compute; discriminate|]. split; vm_compute; reflexivity.
Qed.





(** X7.  The guarantee of the sliding window.  For a limit [N >= 1] and a
    key not seen before, when the calls for the key carry timestamps that
    never go back and are at least 60 seconds after the earliest time a
    [time.Time] can hold, any interval of 60 seconds (both ends included)
    holds the timestamps of at most [N] accepted calls. *)
Theorem IsAllowedAllSaturating_window_guarantee r k ats W :
  1 <= requestsPerMinute r →
  requests r !! k = None →
  StronglySorted Z.le ats →
  Forall windowInRange ats →
  Z.of_nat (length (filter (fun u => W - Minute <= u <= W)
                      (accepted ats (fst (IsAllowedAllSaturating r k ats)))))
  <= requestsPerMinute r.
Proof.
  intros HN Hk Hsort Hrange. rewrite (IsAllowedAllSaturating_in_range _ _ _ Hrange).
  by apply IsAllowedAll_window_exact.
Qed.

Lemma IsAllowedAllSaturating_window_guarantee_witness :
  Z.of_nat (length (filter (fun u => fixture.baseTime - Minute <= u <= fixture.baseTime)
                      (accepted [fixture.baseTime - Second; fixture.baseTime; fixture.baseTime]
                         (fst (IsAllowedAllSaturating (NewRateLimiter 2) "c1"
                                 [fixture.baseTime - Second; fixture.baseTime;
                                  fixture.baseTime])))))
  <= 2.
Proof.
  apply (IsAllowedAllSaturating_window_guarantee (NewRateLimiter 2) "c1"
           [fixture.baseTime - Second; fixture.baseTime; fixture.baseTime]
           fixture.baseTime).
  - simpl. lia.
  - reflexivity.
  - repeat constructor; unfold Second; lia.
  - repeat constructor; vm_compute; discriminate.
Defined.

End TimeRange.

(** * The batch file *)

Section BatchFile.

Import validator service.

(** C8 (amended).  [ProcessSamplesFile] fails fatally, with an error, the
    zero [ProcessResult] and nothing logged, counted, rate-checked or stored,
    if and only if the file cannot be opened or the decoder returns an error
    for its contents, which it does for malformed JSON and also for a
    well-formed container that holds a value of the wrong JSON type, a
    record's field included.  Once the decoder has given the records, no
    failure of a record aborts the batch: the call returns no error, every
    record that parses and validates is put to the limiter in batch order,
    the sink receives some of those records, each counted as a success, and,
    while the log is writable, every other record is rejected with one
    logged and counted entry. *)
Theorem ProcessSamplesFile_fatal_iff world timeParse jsonDecode filepath s :
  let '((result, err), s') :=
    ProcessSamplesFile world timeParse jsonDecode filepath s in
  (err ≠ None ↔
     (∃ e, Open world (tick s) filepath = inl e)
     ∨ (∃ contents e, Open world (tick s) filepath = inr contents
                      ∧ jsonDecode contents = inl e))
  ∧ (err ≠ None → result = mkProcessResult 0 0 ∧ untouched s s')
  ∧ (∀ contents samples,
       Open world (tick s) filepath = inr contents →
       jsonDecode contents = inr samples →
       err = None
       ∧ rateLimiter s'
         = ratelimiter.run (rateLimiter s) (rateCall <$> omap (passes timeParse) samples)
       ∧ (∃ new, inserted s' = inserted s ++ new
            ∧ new `sublist_of` omap (passes timeParse) samples
            ∧ SuccessCount result = Z.of_nat (length new))
       ∧ (logWritable world →
          0 <= errorCount s →
          errorCount s + Z.of_nat (length samples) <= GoInt.maxInt →
          ∃ entries, errorLog s' = errorLog s ++ entries
            ∧ Z.of_nat (length entries) = Z.of_nat (length samples) - SuccessCount result
            ∧ ErrorCount result = errorCount s + Z.of_nat (length entries)
            ∧ Forall (fun entry => entryStatus entry = "error"
                        ∧ entryCustomerId entry ∈ CustomerID <$> samples) entries)).
Proof.
  unfold ProcessSamplesFile, bind at 1, osOpen.
  destruct (Open world (tick s) filepath) as [e|contents] eqn:Hopen.
  { unfold ret. split; [|split].
    - split; [eauto|done].
    - intros _. split; [done|apply untouched_step].
    - intros ? ? [=]. }
  destruct (jsonDecode contents) as [e|samples] eqn:Hdec.
  { unfold ret. split; [|split].
    - split; [|done]. intros _. right. eauto.
    - intros _. split; [done|apply untouched_step].
    - intros ? ? [= <-] Hd. congruence. }
  unfold ProcessSamples, bind, GetErrorCount, ret.
  pose proof (processLoop_trace world timeParse samples 0 (step s)) as Htrace.
  pose proof (processLoop_log world timeParse samples 0 (step s)) as Hlog.
  pose proof (fun Hw => processLoop_accounting world timeParse Hw samples 0 (step s))
    as Hacc.
  destruct (processLoop world timeParse samples 0 (step s)) as [n s'].
  cbn [step errorCount rateLimiter errorLog inserted] in *.
  destruct Htrace as (Hr & new & Hi & Hsub & ->).
  split; [|split].
  - split; [done|]. intros [[e [=]]|(c & e & [= <-] & Hd)]. congruence.
  - done.
  - intros ? ? [= <-] Hd. rewrite Hdec in Hd. injection Hd as <-.
    split; [done|]. split; [done|]. split; [exists new; simpl; by rewrite Z.add_0_l|].
    intros Hw Hpos Hmax.
    destruct (Hlog Hpos Hmax) as (entries & Hl & Hc & _ & Hall).
    destruct (Hacc Hw Hpos Hmax) as (stored & refused & Hsum & Hn & Hc' & _).
    exists entries. simpl. repeat split; first [done | lia].
Qed.

(** The text of [fixture.wrongTyped], with [json.quote] for each double
    quote. *)
Example render_wrongTyped :
  json.render fixture.wrongTyped
  = "{" +:+ json.quote +:+ "samples" +:+ json.quote +:+ ":[{"
    +:+ json.quote +:+ "customerId" +:+ json.quote +:+ ":5}]}".
Proof. reflexivity. Qed.

(** C8 as stated fails for a well-formed container with a wrong-typed field
    in one record: the file holds the text of an object whose member
    [samples] is an array, the decoder returns a type error for the record's
    customer id, and the whole call fails. *)
Lemma wrong_typed_field_is_fatal :
  let contents := json.render fixture.wrongTyped in
  Open fixture.typedBatch 0 "samples.json" = inr contents
  ∧ json.wellFormedContainer contents
  ∧ ProcessSamplesFile fixture.typedBatch fixture.parseRFC3339 fixture.decodeTyped
      "samples.json" (NewSampleService 5)
    = ((mkProcessResult 0 0,
        Some ("error decoding JSON: " +:+
              "json: cannot unmarshal number into a field of type string")),
       step (NewSampleService 5)).
Proof.
  cbv zeta. split; [reflexivity|]. split.
  - eexists. reflexivity.
  - vm_compute. reflexivity.
Qed.

End BatchFile.
